(** * poesy-maker: the document parser (parser.py)

    A shallow embedding of the pure part of [parser.py]: [slugify],
    [split_poems], [_split_on_trailing_author], [parse_poem_chunk],
    [_is_known_author], [load_author_overrides] and the loop of
    [fetch_and_parse], together with the properties of the specification
    that concern them.  What the program gets from outside, the text of
    the document and what opening and loading the override file gives,
    is an argument of the functions that use it.  Of what reads the records, the text
    [build_tts_text] makes of a poem and the loop of attempts of
    [generate_audio] ([tts.py]) are embedded as well.

    Python strings are sequences of Unicode code points; they are modelled
    as lists of code points ([N]).  The regular expressions of the source
    are kept as regular expressions: a small backtracking matcher gives
    them the meaning Python's [re] module gives them (greedy quantifiers,
    first match in priority order, leftmost search). *)

From stdpp Require Import gmap list strings.
From Stdlib Require Import NArith Lia.

Open Scope N_scope.
Open Scope nat_scope.
Open Scope list_scope.

(** ** Python strings *)

Abbreviation char := N (only parsing).
Abbreviation str := (list N) (only parsing).

(** A string literal of the development, as a Python string. *)
Fixpoint py (s : string) : str :=
  match s with
  | EmptyString => []
  | String a s' => Ascii.N_of_ascii a :: py s'
  end.

Definition NL : char := 10%N.
Definition HYPHEN : char := 45%N.
Definition UNDERSCORE : char := 95%N.

(** [str.isspace] of one character, which is also what [\s] matches in a
    [str] pattern: the code points CPython lists as white space. *)
Definition isspace (c : char) : bool :=
  ((9 <=? c) && (c <=? 13) || (28 <=? c) && (c <=? 32)
   || (c =? 133) || (c =? 160) || (c =? 5760)
   || (8192 <=? c) && (c <=? 8202)
   || (c =? 8232) || (c =? 8233) || (c =? 8239) || (c =? 8287)
   || (c =? 12288))%N.

(** [s.lstrip(chars)], [s.rstrip(chars)], [s.strip(chars)] for a set of
    characters given as a predicate. *)
Fixpoint lstrip_with (p : char -> bool) (s : str) : str :=
  match s with
  | c :: t => if p c then lstrip_with p t else s
  | [] => []
  end.

Definition rstrip_with (p : char -> bool) (s : str) : str :=
  rev (lstrip_with p (rev s)).

Definition strip_with (p : char -> bool) (s : str) : str :=
  rstrip_with p (lstrip_with p s).

(** [s.strip()] *)
Definition strip (s : str) : str := strip_with isspace s.

(** [s.split("\n")]: never empty, the pieces hold no newline. *)
Fixpoint split_nl (s : str) : list str :=
  match s with
  | [] => [[]]
  | c :: t =>
      if (c =? NL)%N then [] :: split_nl t
      else match split_nl t with
           | l :: ls => (c :: l) :: ls
           | [] => [[c]]
           end
  end.

(** ["\n".join(lines)] *)
Fixpoint join_nl (ls : list str) : str :=
  match ls with
  | [] => []
  | [l] => l
  | l :: ls' => l ++ NL :: join_nl ls'
  end.

(** Truth value of a string ([if s:], [not s]). *)
Definition nonempty (s : str) : bool :=
  match s with [] => false | _ => true end.

(** Truth value of a value that is [None] or a string. *)
Definition truthy (o : option str) : bool :=
  match o with Some s => nonempty s | None => false end.

(** ** Regular expressions, as Python's [re] matches them *)

Inductive regex :=
| Eps
| Chr (p : char -> bool)        (* a literal, a class, or [.] *)
| Bol                           (* [^] *)
| Eol                           (* [$] *)
| Seq (r1 r2 : regex)
| Star (r : regex)              (* [r*], greedy *)
| Opt (r : regex)               (* [r?], greedy *)
| Group (n : nat) (r : regex).  (* capturing group number [n] *)

(** [r+] and [r{n,}] *)
Definition Plus (r : regex) : regex := Seq r (Star r).

Fixpoint AtLeast (n : nat) (r : regex) : regex :=
  match n with
  | 0 => Star r
  | S n' => Seq r (AtLeast n' r)
  end.

Definition eqc (c : char) : char -> bool := fun x => (x =? c)%N.
Definition one_of (cs : str) : char -> bool :=
  fun x => existsb (fun c => (x =? c)%N) cs.
(** [.] without DOTALL *)
Definition dot : char -> bool := fun x => negb (x =? NL)%N.

(** A literal string *)
Fixpoint Lit (s : str) : regex :=
  match s with
  | [] => Eps
  | c :: t => Seq (Chr (eqc c)) (Lit t)
  end.

(** The matcher's position in the subject: what lies before it (nearest
    character first), what lies after, and the groups captured so far. *)
Record cursor := Cursor {
  before : str;
  after : str;
  groups : list (nat * str)
}.

Definition start_of (s : str) : cursor := Cursor [] s [].

Definition advance (c : char) (t : str) (st : cursor) : cursor :=
  Cursor (c :: before st) t (groups st).

Definition at_bol (multiline : bool) (st : cursor) : bool :=
  match before st with
  | [] => true
  | c :: _ => multiline && (c =? NL)%N
  end.

Definition at_eol (multiline : bool) (st : cursor) : bool :=
  match after st with
  | [] => true
  | c :: t => (c =? NL)%N && (multiline || negb (nonempty t))
  end.

(** The text consumed between two positions of one run. *)
Definition consumed (st st' : cursor) : str :=
  take (length (after st) - length (after st')) (after st).

Section Matcher.
Context {A : Type}.
Variable multiline : bool.

(** Greedy repetition: one more round of [body] first, and only when
    none leads to a match, the continuation.  A round that consumes
    nothing is not repeated. *)
Fixpoint star_loop (body : cursor -> (cursor -> option A) -> option A)
    (fuel : nat) (st : cursor) (k : cursor -> option A) : option A :=
  match fuel with
  | 0 => k st
  | S fuel' =>
      match body st (fun st' =>
              if length (after st') <? length (after st)
              then star_loop body fuel' st' k
              else None) with
      | Some x => Some x
      | None => k st
      end
  end.

(** Backtracking in continuation-passing style: [rmatch r st k] is the
    first way, in the priority order of [re], of matching [r] from [st]
    such that the continuation [k] accepts the position reached. *)
Fixpoint rmatch (r : regex) (st : cursor) (k : cursor -> option A)
    : option A :=
  match r with
  | Eps => k st
  | Chr p =>
      match after st with
      | c :: t => if p c then k (advance c t st) else None
      | [] => None
      end
  | Bol => if at_bol multiline st then k st else None
  | Eol => if at_eol multiline st then k st else None
  | Seq r1 r2 => rmatch r1 st (fun st' => rmatch r2 st' k)
  | Star r1 => star_loop (rmatch r1) (length (after st)) st k
  | Opt r1 =>
      match rmatch r1 st k with
      | Some x => Some x
      | None => k st
      end
  | Group n r1 =>
      rmatch r1 st (fun st' =>
        k (Cursor (before st') (after st')
             ((n, consumed st st') :: groups st')))
  end.
End Matcher.

(** A match: where it starts and where it ends. *)
Record rmatch_result := Match { m_start : cursor; m_end : cursor }.

(** Matching at one position. *)
Definition match_at (multiline : bool) (r : regex) (st : cursor)
    : option rmatch_result :=
  rmatch multiline r st (fun st' => Some (Match st st')).

(** [re.match(r, s)] *)
Definition re_match (r : regex) (s : str) : option rmatch_result :=
  match_at false r (start_of s).

(** [re.search]: the leftmost position at which the pattern matches;
    [scan] walks the subject from [st] on. *)
Fixpoint scan (multiline : bool) (r : regex) (bef aft : str)
    : option rmatch_result :=
  match match_at multiline r (Cursor bef aft []) with
  | Some m => Some m
  | None =>
      match aft with
      | [] => None
      | c :: t => scan multiline r (c :: bef) t
      end
  end.

Definition re_search (multiline : bool) (r : regex) (s : str)
    : option rmatch_result :=
  scan multiline r [] s.

(** [m.group(n)] of a group that took part in the match *)
Definition group (n : nat) (m : rmatch_result) : str :=
  match list_find (fun g => fst g = n) (groups (m_end m)) with
  | Some (_, g) => snd g
  | None => []
  end.

(** [m.end()] *)
Definition m_end_pos (m : rmatch_result) : nat := length (before (m_end m)).

(** [re.finditer]: the successive matches, each search resuming where the
    previous match ended.  None of the patterns of the program matches the
    empty string; after such a match the search would resume one character
    further.  A subject of [n] characters needs no more than [n + 1]
    rounds. *)
Fixpoint finditer_from (multiline : bool) (r : regex) (fuel : nat)
    (bef aft : str) : list rmatch_result :=
  match fuel with
  | 0 => []
  | S fuel' =>
      let step :=
        match aft with
        | [] => []
        | c :: t => finditer_from multiline r fuel' (c :: bef) t
        end in
      match match_at multiline r (Cursor bef aft []) with
      | Some m =>
          if length (after (m_end m)) <? length aft
          then m :: finditer_from multiline r fuel'
                      (before (m_end m)) (after (m_end m))
          else m :: step
      | None => step
      end
  end.

Definition finditer (r : regex) (s : str) : list rmatch_result :=
  finditer_from false r (S (length s)) [] s.

(** The text from the position [aft] up to the start of the match [m]. *)
Definition upto (aft : str) (m : rmatch_result) : str :=
  take (length aft - length (after (m_start m))) aft.

(** [re.split(r, s)] for a pattern without groups: the text between the
    matches. *)
Fixpoint pieces (aft : str) (ms : list rmatch_result) : list str :=
  match ms with
  | [] => [aft]
  | m :: ms' => upto aft m :: pieces (after (m_end m)) ms'
  end.

Definition re_split (r : regex) (s : str) : list str :=
  pieces s (finditer r s).

(** [re.sub(r, repl, s)] for a replacement without back-references. *)
Fixpoint replaced (repl aft : str) (ms : list rmatch_result) : str :=
  match ms with
  | [] => aft
  | m :: ms' => upto aft m ++ repl ++ replaced repl (after (m_end m)) ms'
  end.

Definition re_sub (r : regex) (repl s : str) : str :=
  replaced repl s (finditer r s).

(** ** Exceptions *)

(** An exception, by its class.  [ValueError] stands for the instances
    of [ValueError] that are no [UnicodeDecodeError] and no
    [JSONDecodeError], and [OtherError] for the instances of any class
    that is none of the others and has none of them above it. *)
Inductive exn :=
| IndexError
| AttributeError
| FileNotFoundError
| PermissionError
| IsADirectoryError
| UnicodeDecodeError
| JSONDecodeError
| ValueError
| RecursionError
| OtherError (cls : string).

Inductive result (A : Type) :=
| Ok (a : A)
| Raise (e : exn).
Arguments Ok {A} a.
Arguments Raise {A} e.

Definition bind {A B} (x : result A) (f : A -> result B) : result B :=
  match x with
  | Ok a => f a
  | Raise e => Raise e
  end.

Notation "x <- e1 ;; e2" := (bind e1 (fun x => e2))
  (at level 100, e1 at next level, right associativity).

(** ** slugify *)

Section Parser.
(** [unicodedata.normalize("NFKD", text)]: the decomposition tables of
    the Unicode database are not part of the program. *)
Variable normalize_NFKD : str -> str.

Definition is_ascii (c : char) : bool := (c <? 128)%N.

(** [text.encode("ascii", "ignore").decode("ascii")] *)
Definition ascii_ignore (s : str) : str :=
  filter (fun c => is_ascii c = true) s.

(** [text.lower()] of one character of an ASCII string *)
Definition lower_char (c : char) : char :=
  if ((65 <=? c) && (c <=? 90))%N then (c + 32)%N else c.

Definition lower (s : str) : str := map lower_char s.

(** [[a-z0-9]] *)
Definition is_slug_alnum (c : char) : bool :=
  ((97 <=? c) && (c <=? 122) || (48 <=? c) && (c <=? 57))%N.

(** [[^a-z0-9]] *)
Definition non_alnum (c : char) : bool := negb (is_slug_alnum c).

(** [[^a-z0-9]+] *)
Definition non_alnum_run : regex := Plus (Chr non_alnum).

Definition slugify (text : str) : str :=
  let text := normalize_NFKD text in
  let text := ascii_ignore text in
  let text := lower text in
  let text := re_sub non_alnum_run [HYPHEN] text in
  let text := strip_with (eqc HYPHEN) text in
  text.

(** ** split_poems *)

Definition ws : regex := Chr isspace.

(** [\n_{4,}\n?] *)
Definition delimiter_re : regex :=
  Seq (Chr (eqc NL))
    (Seq (AtLeast 4 (Chr (eqc UNDERSCORE))) (Opt (Chr (eqc NL)))).

(** [^(--\s*.+)$\n(\s*\n){2,}], used with [re.MULTILINE] *)
Definition attribution_break_re : regex :=
  Seq Bol
    (Seq (Group 1 (Seq (Lit (py "--")) (Seq (Star ws) (Plus (Chr dot)))))
       (Seq Eol
          (Seq (Chr (eqc NL))
             (AtLeast 2 (Group 2 (Seq (Star ws) (Chr (eqc NL)))))))).

(** [_split_on_trailing_author]; the recursion is on a string shorter
    than [chunk], so [length chunk] rounds are enough. *)
Fixpoint split_on_trailing_author_rec (fuel : nat) (chunk : str)
    : list str :=
  match re_search true attribution_break_re chunk with
  | Some m =>
      let split_pos := m_end_pos m in
      let first := strip (take split_pos chunk) in
      let rest := strip (drop split_pos chunk) in
      if nonempty first && nonempty rest then
        match fuel with
        | S fuel' => first :: split_on_trailing_author_rec fuel' rest
        | 0 => [chunk]
        end
      else [chunk]
  | None => [chunk]
  end.

Definition _split_on_trailing_author (chunk : str) : list str :=
  split_on_trailing_author_rec (length chunk) chunk.

(** The chunks of the split on the delimiter, the second statement of
    [split_poems] done. *)
Definition primary_chunks (text : str) : list str :=
  let chunks := re_split delimiter_re text in
  map strip (filter (fun c => nonempty (strip c) = true) chunks).

Definition split_poems (text : str) : list str :=
  let chunks := primary_chunks text in
  concat (map _split_on_trailing_author chunks).

(** ** _is_known_author *)

Definition _KNOWN_AUTHORS : list str :=
  [ py "Paul Celan";
    py "Mary Oliver";
    py "Amiri Baraka";
    py "Rabia al-Basri";
    py "Constantine P. Cavafy";
    py "Ingeborg Bachmann";
    py "Yehuda Amichai";
    py "Pablo Neruda";
    py "Stephen Dobyns";
    py "Anne Sexton";
    py "Delmore Schwartz" ].

(** [\s*\(.*\)\s*$] *)
Definition parenthetical_re : regex :=
  Seq (Star ws)
    (Seq (Chr (eqc 40%N))
       (Seq (Star (Chr dot))
          (Seq (Chr (eqc 41%N)) (Seq (Star ws) Eol)))).

Definition _is_known_author (text : str) : bool :=
  let text := strip text in
  let base := re_sub parenthetical_re [] text in
  bool_decide (base ∈ _KNOWN_AUTHORS).

(** ** parse_poem_chunk *)

(** The dictionary [parse_poem_chunk] returns. *)
Record parsed := Parsed {
  title : str;
  author : option str;
  body : str
}.

(** [not line.strip()] *)
Definition blank (line : str) : bool := negb (nonempty (strip line)).

(** [while lines and not lines[0].strip(): lines.pop(0)] *)
Fixpoint pop_leading_blank (lines : list str) : list str :=
  match lines with
  | l :: ls => if blank l then pop_leading_blank ls else lines
  | [] => []
  end.

(** [while lines and not lines[-1].strip(): lines.pop()] *)
Definition pop_trailing_blank (lines : list str) : list str :=
  rev (pop_leading_blank (rev lines)).

(** [^--\s*(.+)$] *)
Definition trailing_re : regex :=
  Seq Bol
    (Seq (Lit (py "--"))
       (Seq (Star ws) (Seq (Group 1 (Plus (Chr dot))) Eol))).

(** [^[Bb]y\s+(.+)$] *)
Definition by_re : regex :=
  Seq Bol
    (Seq (Chr (one_of (py "Bb")))
       (Seq (Chr (eqc 121%N))
          (Seq (Plus ws) (Seq (Group 1 (Plus (Chr dot))) Eol)))).

(** [^[Tt]ranslated\s+[Bb]y\s+] *)
Definition translated_re : regex :=
  Seq Bol
    (Seq (Chr (one_of (py "Tt")))
       (Seq (Lit (py "ranslated"))
          (Seq (Plus ws)
             (Seq (Chr (one_of (py "Bb")))
                (Seq (Chr (eqc 121%N)) (Plus ws)))))).

(** The trailing [--Author] attribution: the candidate author and the
    lines that remain. *)
Definition take_trailing_author (lines : list str)
    : option str * list str :=
  let last_line := strip (List.last lines []) in
  match re_match trailing_re last_line with
  | Some trailing_match =>
      (Some (strip (group 1 trailing_match)),
       pop_trailing_blank (removelast lines))
  | None => (None, lines)
  end.

(** The header lines: title, author and the index of the first line of
    the body.  [first_line] is [lines[0].strip()]. *)
Definition classify_header (first_line : str) (lines : list str)
    : str * option str * nat :=
  match lines with
  | _ :: l1 :: more =>                      (* len(lines) > 1 *)
      let second_line := strip l1 in
      match re_match by_re second_line with
      | Some by_match =>
          let body_start :=
            match more with
            | l2 :: _ =>                    (* len(lines) > 2 *)
                match re_match translated_re (strip l2) with
                | Some _ => 3
                | None => 2
                end
            | [] => 2
            end in
          (first_line, Some (strip (group 1 by_match)), body_start)
      | None =>
          if _is_known_author second_line then
            (first_line, Some second_line, 2)
          else if _is_known_author first_line
                  && negb (_is_known_author second_line) then
            (second_line, Some first_line, 2)
          else (first_line, None, 1)
      end
  | _ => (first_line, None, 1)
  end.

(** The lines of the chunk, the blank ones at both ends dropped. *)
Definition trimmed_lines (raw : str) : list str :=
  let lines := split_nl raw in
  let lines := pop_leading_blank lines in
  let lines := pop_trailing_blank lines in
  lines.

Definition parse_poem_chunk (raw : str) : result (option parsed) :=
  let lines := trimmed_lines raw in
  if bool_decide (lines = []) then Ok None
  else
    let '(trailing_author, lines) := take_trailing_author lines in
    first <- match lines with
             | l0 :: _ => Ok l0
             | [] => Raise IndexError       (* lines[0] *)
             end;;
    let first_line := strip first in
    let '(title, author, body_start) := classify_header first_line lines in
    let author :=
      if negb (truthy author) && truthy trailing_author
      then trailing_author else author in
    let body_lines := pop_leading_blank (drop body_start lines) in
    let body := join_nl body_lines in
    Ok (Some (Parsed title author body)).

(** ** load_author_overrides *)

(** A value as [json.load] returns it: [None], a [bool], an [int], a
    [float] (given by the 64 bits of its representation), a [str], a
    [list] or a [dict] with strings as keys. *)
#[warnings="-register-all"]
Inductive json :=
| JNull
| JBool (b : bool)
| JNumber (z : Z)
| JFloat (bits : N)
| JString (s : str)
| JArray (l : list json)
| JObject (m : gmap str json).

(** [data.get("overrides", {})]: only a dictionary has [get]. *)
Definition get_overrides (data : json) : result json :=
  match data with
  | JObject m => Ok (default (JObject ∅) (m !! py "overrides"))
  | _ => Raise AttributeError
  end.

(** [load_author_overrides].  What
    [with open(AUTHORS_JSON) as f: data = json.load(f)] does depends on
    the file system and on the [json] library, which are no part of the
    program: [open_and_load] is its outcome, an exception, whichever, or
    the value loaded.  Of the exceptions raised under [try], the [except]
    clause catches the instances of [FileNotFoundError] and of
    [json.JSONDecodeError]. *)
Definition load_author_overrides (open_and_load : result json)
    : result json :=
  match (data <- open_and_load;; get_overrides data) with
  | Ok v => Ok v
  | Raise FileNotFoundError | Raise JSONDecodeError => Ok (JObject ∅)
  | Raise e => Raise e
  end.

(** ** fetch_and_parse *)

Record poem := Poem {
  poem_index : nat;
  poem_title : str;
  poem_author : option str;
  poem_slug : str;
  poem_body : str
}.

(** The loop over [enumerate(chunks)], from position [i] on, for
    overrides that are a dictionary of names by slug, as authors.json is
    made to hold them; what [slug in overrides] does with a loaded value
    of another type is outside this definition. *)
Fixpoint parse_chunks (overrides : gmap str str) (i : nat)
    (chunks : list str) : result (list poem) :=
  match chunks with
  | [] => Ok []
  | chunk :: chunks' =>
      parsed <- parse_poem_chunk chunk;;
      match parsed with
      | None => parse_chunks overrides (S i) chunks'      (* continue *)
      | Some parsed =>
          let slug := slugify (title parsed) in
          let parsed :=
            match overrides !! slug with
            | Some a => Parsed (title parsed) (Some a) (body parsed)
            | None => parsed
            end in
          poems <- parse_chunks overrides (S i) chunks';;
          Ok (Poem (i + 1) (title parsed) (author parsed) slug
                (body parsed) :: poems)
      end
  end.

(** [fetch_and_parse], given the text [fetch_doc_text] returned and the
    overrides [load_author_overrides] returned, a dictionary of names by
    slug. *)
Definition fetch_and_parse (text : str) (overrides : gmap str str)
    : result (list poem) :=
  let chunks := split_poems text in
  parse_chunks overrides 0 chunks.

End Parser.

(** ** Notions used in the proofs about the matcher *)

(** [reaches st st']: the matcher can be at [st'] having started from
    [st], the characters of [mid] read in between. *)
Definition reaches (st st' : cursor) : Prop :=
  exists mid, after st = mid ++ after st' /\ before st' = rev mid ++ before st.

(** Whatever the matcher answers, the continuation answered it, at a
    position reached from the starting one. *)
Definition sound {A : Type}
    (body : cursor -> (cursor -> option A) -> option A) : Prop :=
  forall st k x, body st k = Some x ->
    exists st', reaches st st' /\ k st' = Some x.

(** The position after the longest run of characters satisfying [p]. *)
Fixpoint skip (p : char -> bool) (bef aft : str) (g : list (nat * str))
    : cursor :=
  match aft with
  | c :: t => if p c then skip p (c :: bef) t g else Cursor bef aft g
  | [] => Cursor bef [] g
  end.

(** [re.sub] of the runs of characters satisfying [p] by one hyphen,
    written directly; [in_run] tells that the run being read has been
    replaced already. *)
Fixpoint collapse_runs (p : char -> bool) (in_run : bool) (s : str) : str :=
  match s with
  | [] => []
  | c :: t =>
      if p c then
        if in_run then collapse_runs p true t
        else HYPHEN :: collapse_runs p true t
      else c :: collapse_runs p false t
  end.

(** Two hyphens next to each other. *)
Fixpoint adjacent_hyphens (s : str) : bool :=
  match s with
  | c1 :: t =>
      match t with
      | c2 :: _ => (eqc HYPHEN c1 && eqc HYPHEN c2) || adjacent_hyphens t
      | [] => false
      end
  | [] => false
  end.

(** An upper-case ASCII letter. *)
Definition is_upper (c : char) : bool := ((65 <=? c) && (c <=? 90))%N.

(** ** Notions of the specification and inputs of the examples *)

(** A pattern letter under [re.IGNORECASE]. *)
Definition eqc_any_case (c : char) : char -> bool :=
  fun x => (lower_char x =? lower_char c)%N.

Fixpoint LitAnyCase (s : str) : regex :=
  match s with
  | [] => Eps
  | c :: t => Seq (Chr (eqc_any_case c)) (LitAnyCase t)
  end.

(** "Translated By <name>" in any letter case, as the specification words
    it: the pattern of [translated_re] with every letter in either
    case. *)
Definition translated_any_case_re : regex :=
  Seq Bol
    (Seq (LitAnyCase (py "translated"))
       (Seq (Plus ws) (Seq (LitAnyCase (py "by")) (Plus ws)))).

(** A delimiter line as the specification words it: a line of four or
    more underscores and nothing else. *)
Definition is_delimiter_line (l : str) : bool :=
  (4 <=? length l) && forallb (eqc UNDERSCORE) l.

Definition delimiter_lines (text : str) : nat :=
  length (filter (fun l => is_delimiter_line l = true) (split_nl text)).

(** The runs of lines between the delimiter lines, one more than there
    are delimiter lines. *)
Fixpoint sections (lines : list str) : list (list str) :=
  match lines with
  | [] => [[]]
  | l :: ls =>
      if is_delimiter_line l then [] :: sections ls
      else match sections ls with
           | s :: ss => (l :: s) :: ss
           | [] => [[l]]
           end
  end.

(** The sections that are empty after trimming. *)
Definition blank_sections (text : str) : nat :=
  length (filter (fun s => forallb blank s = true)
            (sections (split_nl text))).

(** A record with the override of its slug applied. *)
Definition overridden (overrides : gmap str str) (p : poem) : poem :=
  Poem (poem_index p) (poem_title p)
    (match overrides !! poem_slug p with
     | Some a => Some a
     | None => poem_author p
     end)
    (poem_slug p) (poem_body p).

(** Joining lines written one by one. *)
Definition text_of (lines : list string) : str := join_nl (map py lines).

Definition upper_case_translator_chunk : str :=
  text_of ["from T"; "by A B"; "TRANSLATED BY X"; ""; "Body"]%string.

Definition attribution_only_chunk : str := py "--Jane Doe".

Definition author_then_blank_chunk : str :=
  text_of ["Mary Oliver"; ""; "Body text"]%string.

Definition lone_attribution_chunk : str :=
  text_of [""; "-- Anonymous"; ""]%string.

Definition indented_hyphens_chunk : str := py "  --x".

Definition two_rules_document : str := text_of ["a"; "____"; "____"]%string.


(** ** Notions used in the further properties *)

(** A name without opening parenthesis that starts and ends with a
    character other than white space. *)
Definition plain_name (a : str) : bool :=
  negb (existsb (eqc 40%N) a)
  && match a with c :: _ => negb (isspace c) | [] => false end
  && match rev a with z :: _ => negb (isspace z) | [] => false end.

(** An ASCII letter or digit. *)
Definition is_ascii_alnum (c : char) : bool :=
  ((48 <=? c) && (c <=? 57) || (65 <=? c) && (c <=? 90)
   || (97 <=? c) && (c <=? 122))%N.

(** A carriage return that no line feed follows. *)
Fixpoint lone_cr (s : str) : bool :=
  match s with
  | [] => false
  | c :: t =>
      (c =? 13)%N
      && negb match t with c' :: _ => (c' =? NL)%N | [] => false end
      || lone_cr t
  end.

(** ** fetch_doc_text *)

Definition BOM : char := 65279%N.
Definition CR : char := 13%N.

(** [s.replace("\r\n", "\n")] *)
Fixpoint replace_crlf (s : str) : str :=
  match s with
  | [] => []
  | c :: t =>
      match t with
      | c' :: t' =>
          if ((c =? CR) && (c' =? NL))%N then NL :: replace_crlf t'
          else c :: replace_crlf t
      | [] => [c]
      end
  end.

(** [fetch_doc_text], given the text of the response:
    [resp.text.lstrip("\ufeff").replace("\r\n", "\n")]. *)
Definition fetch_doc_text (resp_text : str) : str :=
  let text := replace_crlf (lstrip_with (eqc BOM) resp_text) in
  text.

(** ** build_tts_text and char_count (tts.py) *)

Definition SPACE : char := 32%N.

(** [f"{x}"] for a value that is a string or [None]. *)
Definition format_value (x : option str) : str :=
  match x with Some s => s | None => py "None" end.

(** [\s+] *)
Definition ws_run : regex := Plus ws.

Definition build_tts_text (p : poem) : str :=
  let intro :=
    poem_title p ++ py ", by " ++ format_value (poem_author p) ++ py "." in
  let body := poem_body p in
  let prose := strip (re_sub ws_run (py " ") body) in
  intro ++ [NL; NL] ++ prose.

Definition char_count (p : poem) : nat := length (build_tts_text p).

(** [re.sub] of the runs of characters satisfying [p] by the character
    [r], written directly; [in_run] tells that the run being read has
    been replaced already. *)
Fixpoint squeeze (p : char -> bool) (r : char) (in_run : bool) (s : str)
    : str :=
  match s with
  | [] => []
  | c :: t =>
      if p c then
        if in_run then squeeze p r true t
        else r :: squeeze p r true t
      else c :: squeeze p r false t
  end.

(** The words of a string: its longest runs of characters other than
    white space. *)
Fixpoint words (s : str) : list str :=
  match s with
  | [] => []
  | c :: t =>
      if isspace c then words t
      else match t with
           | c' :: _ =>
               if isspace c' then [c] :: words t
               else match words t with
                    | w :: ws => (c :: w) :: ws
                    | [] => [[c]]
                    end
           | [] => [[c]]
           end
  end.

(** [" ".join(ws)] *)
Fixpoint join_sp (ws : list str) : str :=
  match ws with
  | [] => []
  | [w] => w
  | w :: ws' => w ++ SPACE :: join_sp ws'
  end.

(** ** generate_audio: the attempts (tts.py) *)

Definition TTS_MAX_RETRIES : nat := 3.

(** What the loop of [generate_audio] does that can be observed from
    outside: it enters the [try] block, which sends the text to the
    service and writes the file, and in the [except] branch it prints
    twice and sleeps; an event of the branch is a call that has
    returned. *)
Inductive attempt_event (Exc : Type) :=
| Try (attempt : nat)
| PrintRetry (n total : nat) (e : Exc)
| PrintWaiting (wait : nat)
| Sleep (wait : nat).

Arguments Try {Exc}.
Arguments PrintRetry {Exc}.
Arguments PrintWaiting {Exc}.
Arguments Sleep {Exc}.

(** The calls of the [except] branch, each of which may raise instead of
    returning ([time.sleep] interrupted from the keyboard, [print] on a
    closed pipe), and how many calls of the branch come before each. *)
Inductive handler_call :=
| PrintRetryCall
| PrintWaitingCall
| SleepCall.

Definition calls_before (c : handler_call) : nat :=
  match c with
  | PrintRetryCall => 0
  | PrintWaitingCall => 1
  | SleepCall => 2
  end.

(** How the loop ends: by [break] with the bytes written, with an
    exception that leaves it, or with its range used up. *)
Inductive attempts_end (Exc B : Type) :=
| Break (audio_bytes : B)
| Raises (e : Exc)
| RangeEnd.

Arguments Break {Exc B}.
Arguments Raises {Exc B}.
Arguments RangeEnd {Exc B}.

(** [for attempt in range(TTS_MAX_RETRIES): try: ... break
     except Exception as e: ...], for the attempts of [todo].
    What the service, the file system and the terminal do is given from
    outside: [try_block attempt] is what the [try] block does at that
    attempt, it raises an exception or gets the bytes and writes them;
    [is_Exception e] tells whether [e] is an instance of [Exception],
    which [except Exception] catches, or another [BaseException]
    ([KeyboardInterrupt], [SystemExit]), which it does not;
    [handler attempt] is [None] when the calls of the [except] branch
    return, and the call that raises with its exception otherwise. *)
Fixpoint attempts_from {Exc B : Type} (is_Exception : Exc -> bool)
    (try_block : nat -> Exc + B)
    (handler : nat -> option (handler_call * Exc))
    (todo : list nat) : list (attempt_event Exc) * attempts_end Exc B :=
  match todo with
  | [] => ([], RangeEnd)
  | attempt :: todo' =>
      match try_block attempt with
      | inr audio_bytes => ([Try attempt], Break audio_bytes)
      | inl e =>
          if is_Exception e then
            if (attempt <? TTS_MAX_RETRIES - 1)%nat then
              let wait := (2 ^ (attempt + 1))%nat in
              let branch :=
                [PrintRetry (attempt + 1) TTS_MAX_RETRIES e;
                 PrintWaiting wait; Sleep wait] in
              match handler attempt with
              | None =>
                  let (events, r) :=
                    attempts_from is_Exception try_block handler todo' in
                  (Try attempt :: branch ++ events, r)
              | Some (call, x) =>
                  (Try attempt :: take (calls_before call) branch, Raises x)
              end
            else ([Try attempt], Raises e)
          else ([Try attempt], Raises e)
      end
  end.

Definition generate_audio_attempts {Exc B : Type}
    (is_Exception : Exc -> bool) (try_block : nat -> Exc + B)
    (handler : nat -> option (handler_call * Exc))
    : list (attempt_event Exc) * attempts_end Exc B :=
  attempts_from is_Exception try_block handler (seq 0 TTS_MAX_RETRIES).

(** The attempts made and the seconds slept, in order. *)
Definition tries {Exc : Type} (events : list (attempt_event Exc))
    : list nat :=
  omap (fun ev => match ev with Try k => Some k | _ => None end) events.

Definition sleeps {Exc : Type} (events : list (attempt_event Exc))
    : list nat :=
  omap (fun ev => match ev with Sleep w => Some w | _ => None end) events.

(** * Properties *)

(** ** Strings *)

Lemma lstrip_with_split (p : char -> bool) (s : str) :
  exists pre, s = pre ++ lstrip_with p s /\ Forall (fun c => p c = true) pre.
Proof.
  induction s as [|c t IH]; simpl.
  - exists []. split; [reflexivity | constructor].
  - destruct (p c) eqn:Hc.
    + destruct IH as (pre & Heq & Hall). exists (c :: pre). split.
      * simpl. congruence.
      * constructor; assumption.
    + exists []. split; [reflexivity | constructor].
Qed.

Lemma lstrip_with_head (p : char -> bool) (s : str) c t :
  lstrip_with p s = c :: t -> p c = false.
Proof.
  induction s as [|a s IH]; simpl; [discriminate |].
  destruct (p a) eqn:Ha; [exact IH |].
  intros [= -> _]. exact Ha.
Qed.

Lemma lstrip_with_nil (p : char -> bool) (s : str) :
  lstrip_with p s = [] <-> Forall (fun c => p c = true) s.
Proof.
  induction s as [|a s IH]; simpl.
  - split; [constructor | reflexivity].
  - destruct (p a) eqn:Ha.
    + rewrite IH. split; [intros; constructor; assumption |].
      intros H. inversion H; assumption.
    + split; [discriminate |]. intros H. inversion H; congruence.
Qed.

Lemma lstrip_with_fixed (p : char -> bool) (s : str) :
  (forall c t, s = c :: t -> p c = false) -> lstrip_with p s = s.
Proof.
  destruct s as [|c t]; [reflexivity |]. intros H. simpl.
  rewrite (H c t); reflexivity.
Qed.

Lemma rstrip_with_split (p : char -> bool) (s : str) :
  exists suf, s = rstrip_with p s ++ suf /\ Forall (fun c => p c = true) suf.
Proof.
  unfold rstrip_with.
  destruct (lstrip_with_split p (rev s)) as (pre & Heq & Hall).
  exists (rev pre). split.
  - rewrite <- rev_app_distr, <- Heq, rev_involutive. reflexivity.
  - apply Forall_rev. exact Hall.
Qed.

Lemma rstrip_with_last (p : char -> bool) (s : str) t c :
  rstrip_with p s = t ++ [c] -> p c = false.
Proof.
  unfold rstrip_with. intros H.
  apply (f_equal (@rev N)) in H.
  rewrite rev_involutive, rev_app_distr in H. simpl in H.
  eapply lstrip_with_head. exact H.
Qed.

Lemma rstrip_with_nil (p : char -> bool) (s : str) :
  rstrip_with p s = [] <-> Forall (fun c => p c = true) s.
Proof.
  unfold rstrip_with. split.
  - intros H. apply (f_equal (@rev N)) in H. rewrite rev_involutive in H.
    simpl in H. apply lstrip_with_nil in H. apply Forall_rev in H.
    rewrite rev_involutive in H. exact H.
  - intros H. apply Forall_rev in H. apply lstrip_with_nil in H.
    rewrite H. reflexivity.
Qed.

(** A string keeps its first character through [rstrip] when that
    character is not stripped. *)
Lemma rstrip_with_cons (p : char -> bool) c (s : str) :
  p c = false -> exists t, rstrip_with p (c :: s) = c :: t.
Proof.
  intros Hc.
  destruct (rstrip_with_split p (c :: s)) as (suf & Heq & Hall).
  destruct (rstrip_with p (c :: s)) as [|a t] eqn:E.
  - simpl in Heq. subst suf. inversion Hall; congruence.
  - simpl in Heq. injection Heq as -> _. exists t. reflexivity.
Qed.

(** [strip] leaves nothing exactly of the strings made of white space. *)
Lemma strip_with_nil (p : char -> bool) (s : str) :
  strip_with p s = [] <-> Forall (fun c => p c = true) s.
Proof.
  unfold strip_with. rewrite rstrip_with_nil.
  destruct (lstrip_with_split p s) as (pre & Heq & Hall).
  split.
  - intros H. rewrite Heq. apply Forall_app. split; assumption.
  - intros H. rewrite Heq in H. apply Forall_app in H. tauto.
Qed.

Lemma strip_with_head (p : char -> bool) (s : str) c t :
  strip_with p s = c :: t -> p c = false.
Proof.
  unfold strip_with. intros H.
  destruct (lstrip_with p s) as [|a u] eqn:E.
  - unfold rstrip_with in H. simpl in H. discriminate.
  - pose proof (lstrip_with_head _ _ _ _ E) as Ha.
    destruct (rstrip_with_cons p a u Ha) as (t' & Ht').
    rewrite Ht' in H. injection H as -> _. exact Ha.
Qed.

Lemma strip_with_last (p : char -> bool) (s : str) t c :
  strip_with p s = t ++ [c] -> p c = false.
Proof. unfold strip_with. apply rstrip_with_last. Qed.

(** [strip] removes nothing from a string that neither starts nor ends
    with a stripped character. *)
Lemma rstrip_with_fixed (p : char -> bool) (s : str) :
  (forall t c, s = t ++ [c] -> p c = false) -> rstrip_with p s = s.
Proof.
  intros H. unfold rstrip_with. rewrite lstrip_with_fixed.
  - apply rev_involutive.
  - intros c t E. apply (H (rev t) c).
    apply (f_equal (@rev N)) in E. rewrite rev_involutive in E.
    simpl in E. exact E.
Qed.

Lemma strip_with_idem (p : char -> bool) (s : str) :
  strip_with p (strip_with p s) = strip_with p s.
Proof.
  unfold strip_with at 1. rewrite lstrip_with_fixed.
  - apply rstrip_with_fixed. intros t c E. eapply strip_with_last. exact E.
  - intros c t E. eapply strip_with_head. exact E.
Qed.

Lemma nonempty_true (s : str) : nonempty s = true <-> s <> [].
Proof. destruct s; simpl; split; congruence. Qed.

Lemma blank_false_iff (l : str) :
  blank l = false <-> exists c, c ∈ l /\ isspace c = false.
Proof.
  unfold blank. rewrite negb_false_iff, nonempty_true.
  unfold strip. rewrite strip_with_nil. split.
  - intros H. apply not_Forall_Exists in H; [| intros c; apply bool_dec].
    apply Exists_exists in H. destruct H as (c & Hin & Hc).
    exists c. split; [exact Hin |]. simpl in Hc.
    destruct (isspace c); [exfalso; apply Hc; reflexivity | reflexivity].
  - intros (c & Hin & Hc) H. rewrite Forall_forall in H.
    specialize (H c Hin). congruence.
Qed.

Lemma strip_with_infix p (s : str) :
  exists pre suf, s = pre ++ strip_with p s ++ suf.
Proof.
  destruct (lstrip_with_split p s) as (pre & Hpre & _).
  destruct (rstrip_with_split p (lstrip_with p s)) as (suf & Hsuf & _).
  exists pre, suf. unfold strip_with. rewrite <- Hsuf. exact Hpre.
Qed.

Lemma length_strip (s : str) : length (strip s) <= length s.
Proof.
  destruct (strip_with_infix isspace s) as (pre & suf & Heq).
  unfold strip. rewrite Heq at 2. rewrite !length_app. lia.
Qed.

(** ** The matcher *)

Lemma reaches_refl st : reaches st st.
Proof. exists []. split; reflexivity. Qed.

Lemma reaches_trans st1 st2 st3 :
  reaches st1 st2 -> reaches st2 st3 -> reaches st1 st3.
Proof.
  intros (m1 & Ha1 & Hb1) (m2 & Ha2 & Hb2). exists (m1 ++ m2). split.
  - rewrite Ha1, Ha2, app_assoc. reflexivity.
  - rewrite Hb2, Hb1, rev_app_distr, app_assoc. reflexivity.
Qed.

Lemma reaches_advance st c t :
  after st = c :: t -> reaches st (advance c t st).
Proof. intros H. exists [c]. split; [exact H | reflexivity]. Qed.

Lemma reaches_length st st' :
  reaches st st' -> length (after st') <= length (after st).
Proof. intros (mid & Ha & _). rewrite Ha, length_app. lia. Qed.

Lemma reaches_consumed st st' :
  reaches st st' -> after st = consumed st st' ++ after st'.
Proof.
  intros (mid & Ha & _). unfold consumed. rewrite Ha at 2.
  rewrite Ha, length_app, Nat.add_sub, take_app_length. reflexivity.
Qed.

Section MatcherSound.
Context {A : Type}.
Variable multiline : bool.

Lemma star_loop_sound
    (body : cursor -> (cursor -> option A) -> option A) : sound body ->
  forall fuel, sound (star_loop body fuel).
Proof.
  intros Hbody fuel. induction fuel as [|fuel IH]; intros st k x H.
  - exists st. split; [apply reaches_refl | exact H].
  - simpl in H.
    destruct (body st _) as [y|] eqn:E.
    + injection H as ->. apply Hbody in E.
      destruct E as (st1 & Hr1 & E).
      destruct (_ <? _); [| discriminate].
      apply IH in E. destruct E as (st2 & Hr2 & E).
      exists st2. split; [eapply reaches_trans; eassumption | exact E].
    + exists st. split; [apply reaches_refl | exact H].
Qed.

Lemma rmatch_sound r : sound (A := A) (rmatch multiline r).
Proof.
  induction r as [| p | | | r1 IH1 r2 IH2 | r IH | r IH | n r IH];
    intros st k x H; simpl in H.
  - exists st. split; [apply reaches_refl | exact H].
  - destruct (after st) as [|c t] eqn:E; [discriminate |].
    destruct (p c); [| discriminate].
    exists (advance c t st). split; [apply reaches_advance, E | exact H].
  - destruct (at_bol _ _); [| discriminate].
    exists st. split; [apply reaches_refl | exact H].
  - destruct (at_eol _ _); [| discriminate].
    exists st. split; [apply reaches_refl | exact H].
  - apply IH1 in H. destruct H as (st1 & Hr1 & H).
    apply IH2 in H. destruct H as (st2 & Hr2 & H).
    exists st2. split; [eapply reaches_trans; eassumption | exact H].
  - eapply star_loop_sound; eassumption.
  - destruct (rmatch _ _ _ _) as [y|] eqn:E.
    + injection H as ->. apply IH in E. exact E.
    + exists st. split; [apply reaches_refl | exact H].
  - apply IH in H. destruct H as (st1 & Hr1 & H).
    eexists. split; [| exact H].
    destruct Hr1 as (mid & Ha & Hb). exists mid. split; assumption.
Qed.
End MatcherSound.

(** A match starts where it was looked for and ends further on. *)
Lemma match_at_sound multiline r st m :
  match_at multiline r st = Some m ->
  m_start m = st /\ reaches st (m_end m).
Proof.
  unfold match_at. intros H. apply rmatch_sound in H.
  destruct H as (st' & Hr & [= <-]). split; [reflexivity | exact Hr].
Qed.

(** The equations of the matcher. *)
Section MatcherEquations.
Context {A : Type}.
Variables (multiline : bool) (st : cursor) (k : cursor -> option A).

Lemma rmatch_seq r1 r2 :
  rmatch multiline (Seq r1 r2) st k
  = rmatch multiline r1 st (fun st' => rmatch multiline r2 st' k).
Proof. reflexivity. Qed.

Lemma rmatch_chr p :
  rmatch multiline (Chr p) st k
  = match after st with
    | c :: t => if p c then k (advance c t st) else None
    | [] => None
    end.
Proof. reflexivity. Qed.

Lemma rmatch_bol :
  rmatch multiline Bol st k = if at_bol multiline st then k st else None.
Proof. reflexivity. Qed.

Lemma rmatch_eol :
  rmatch multiline Eol st k = if at_eol multiline st then k st else None.
Proof. reflexivity. Qed.

Lemma rmatch_group n r :
  rmatch multiline (Group n r) st k
  = rmatch multiline r st (fun st' =>
      k (Cursor (before st') (after st')
           ((n, consumed st st') :: groups st'))).
Proof. reflexivity. Qed.

Lemma rmatch_star r :
  rmatch multiline (Star r) st k
  = star_loop (rmatch multiline r) (length (after st)) st k.
Proof. reflexivity. Qed.

Lemma rmatch_plus r :
  rmatch multiline (Plus r) st k
  = rmatch multiline r st (fun st' => rmatch multiline (Star r) st' k).
Proof. reflexivity. Qed.
End MatcherEquations.

(** ** The rounds of the loops are enough *)

Section MatcherRounds.
Context {A : Type}.
Variable multiline : bool.

Lemma star_loop_ext (body : cursor -> (cursor -> option A) -> option A) :
  (forall st k k', (forall st', k st' = k' st') -> body st k = body st k') ->
  forall fuel st k k', (forall st', k st' = k' st') ->
    star_loop body fuel st k = star_loop body fuel st k'.
Proof.
  intros Hbody fuel. induction fuel as [|fuel IH]; intros st k k' Hk.
  - apply Hk.
  - cbn [star_loop]. rewrite (Hk st).
    erewrite Hbody; [reflexivity |].
    intros st'. cbv beta. destruct (_ <? _); [apply IH, Hk | reflexivity].
Qed.

(** The answer depends on the continuation through its answers only. *)
Lemma rmatch_ext r : forall st (k k' : cursor -> option A),
  (forall st', k st' = k' st') ->
  rmatch multiline r st k = rmatch multiline r st k'.
Proof.
  induction r as [| p | | | r1 IH1 r2 IH2 | r IH | r IH | n r IH];
    intros st k k' Hk; cbn [rmatch].
  - apply Hk.
  - destruct (after st) as [|c t]; [reflexivity |].
    destruct (p c); [apply Hk | reflexivity].
  - destruct (at_bol _ _); [apply Hk | reflexivity].
  - destruct (at_eol _ _); [apply Hk | reflexivity].
  - apply IH1. intros st'. apply IH2, Hk.
  - apply star_loop_ext; [exact IH | exact Hk].
  - rewrite (IH st k k' Hk), (Hk st). reflexivity.
  - apply IH. intros st'. apply Hk.
Qed.

(** Rounds beyond the number of characters left change nothing. *)
Lemma star_loop_rounds r : forall n m st (k : cursor -> option A),
  length (after st) <= n -> length (after st) <= m ->
  star_loop (rmatch multiline r) n st k
  = star_loop (rmatch multiline r) m st k.
Proof.
  assert (Hstuck : forall st (k : cursor -> option A) K,
    length (after st) = 0 ->
    (forall st', K st' = if length (after st') <? length (after st)
                         then k st' else None) ->
    rmatch multiline r st K = None).
  { intros st k K Hlen HK.
    destruct (rmatch multiline r st K) as [x|] eqn:E; [| reflexivity].
    apply rmatch_sound in E. destruct E as (st' & _ & E).
    rewrite HK, Hlen in E. discriminate. }
  induction n as [|n IH]; intros m st k Hn Hm.
  - destruct m as [|m]; [reflexivity |]. cbn [star_loop].
    erewrite (Hstuck st (fun st' => star_loop _ m st' k));
      [reflexivity | lia | reflexivity].
  - destruct m as [|m]; cbn [star_loop].
    + erewrite (Hstuck st (fun st' => star_loop _ n st' k));
        [reflexivity | lia | reflexivity].
    + erewrite rmatch_ext; [reflexivity |].
      intros st'. cbv beta.
      destruct (Nat.ltb_spec (length (after st')) (length (after st)));
        [| reflexivity].
      apply IH; lia.
Qed.

(** The equation of the greedy star: one more round of [r], provided it
    consumes something, and the star again; failing that, the rest of the
    pattern. *)
Lemma rmatch_star_unfold r st (k : cursor -> option A) :
  rmatch multiline (Star r) st k
  = match rmatch multiline r st (fun st' =>
            if length (after st') <? length (after st)
            then rmatch multiline (Star r) st' k
            else None) with
    | Some x => Some x
    | None => k st
    end.
Proof.
  rewrite rmatch_star.
  rewrite (star_loop_rounds r _ (S (length (after st)))) by lia.
  cbn [star_loop].
  erewrite rmatch_ext; [reflexivity |].
  intros st'. cbv beta.
  destruct (Nat.ltb_spec (length (after st')) (length (after st)));
    [| reflexivity].
  rewrite rmatch_star. apply star_loop_rounds; lia.
Qed.
End MatcherRounds.

Lemma finditer_from_rounds multiline r : forall n m bef aft,
  length aft < n -> length aft < m ->
  finditer_from multiline r n bef aft = finditer_from multiline r m bef aft.
Proof.
  induction n as [|n IH]; intros m bef aft Hn Hm; [lia |].
  destruct m as [|m]; [lia |]. cbn [finditer_from].
  assert (Hstep :
    match aft with
    | [] => []
    | c :: t => finditer_from multiline r n (c :: bef) t
    end
    = match aft with
      | [] => []
      | c :: t => finditer_from multiline r m (c :: bef) t
      end).
  { destruct aft as [|c t]; [reflexivity |]. cbn [length] in *.
    apply IH; lia. }
  rewrite Hstep. destruct (match_at _ _ _) as [mt|]; [| reflexivity].
  destruct (Nat.ltb_spec (length (after (m_end mt))) (length aft));
    [| reflexivity].
  f_equal. apply IH; lia.
Qed.

Lemma split_on_trailing_author_rec_rounds : forall n m (chunk : str),
  length chunk <= n -> length chunk <= m ->
  split_on_trailing_author_rec n chunk = split_on_trailing_author_rec m chunk.
Proof.
  assert (Hshorter : forall (chunk : str) pos,
    nonempty (strip (take pos chunk)) = true ->
    length (strip (drop pos chunk)) < length chunk).
  { intros chunk pos Hfirst.
    pose proof (length_strip (drop pos chunk)) as Hle.
    rewrite length_drop in Hle.
    destruct pos; [rewrite take_0 in Hfirst; discriminate |].
    destruct chunk; [discriminate |]. cbn [length] in *. lia. }
  induction n as [|n IH]; intros m chunk Hn Hm.
  - destruct chunk; [| cbn in Hn; lia].
    destruct m; cbn [split_on_trailing_author_rec];
      destruct (re_search _ _ _); try reflexivity;
      rewrite take_nil; reflexivity.
  - destruct m as [|m]; cbn [split_on_trailing_author_rec];
      destruct (re_search _ _ _) as [mt|]; try reflexivity.
    + destruct chunk; [| cbn in Hm; lia]. rewrite take_nil. reflexivity.
    + destruct (nonempty (strip (take _ _))) eqn:E1; [| reflexivity].
      destruct (nonempty (strip (drop _ _))); [| reflexivity].
      cbn [andb]. f_equal.
      pose proof (Hshorter _ _ E1). apply IH; lia.
Qed.

(** None of the patterns given to [re.split] and [re.sub] matches the
    empty string. *)
Lemma delimiter_re_consumes st m :
  match_at false delimiter_re st = Some m ->
  length (after (m_end m)) < length (after st).
Proof.
  unfold match_at, delimiter_re. rewrite rmatch_seq, rmatch_chr.
  destruct (after st) as [|c t] eqn:E; [discriminate |].
  destruct (eqc NL c); [| discriminate].
  intros H. apply rmatch_sound in H. destruct H as (st' & Hr & [= <-]).
  apply reaches_length in Hr. cbn in *. lia.
Qed.

Lemma non_alnum_run_consumes st m :
  match_at false non_alnum_run st = Some m ->
  length (after (m_end m)) < length (after st).
Proof.
  unfold match_at, non_alnum_run. rewrite rmatch_plus, rmatch_chr.
  destruct (after st) as [|c t] eqn:E; [discriminate |].
  destruct (non_alnum c); [| discriminate].
  intros H. apply rmatch_sound in H. destruct H as (st' & Hr & [= <-]).
  apply reaches_length in Hr. cbn in *. lia.
Qed.

Lemma parenthetical_re_consumes st m :
  match_at false parenthetical_re st = Some m ->
  length (after (m_end m)) < length (after st).
Proof.
  unfold match_at, parenthetical_re. rewrite rmatch_seq.
  intros H. apply rmatch_sound in H. destruct H as (st1 & Hr1 & H).
  rewrite rmatch_seq, rmatch_chr in H.
  destruct (after st1) as [|c t] eqn:E; [discriminate |].
  destruct (eqc _ c); [| discriminate].
  apply rmatch_sound in H. destruct H as (st' & Hr & [= <-]).
  apply reaches_length in Hr, Hr1. cbn in *. rewrite E in Hr1.
  cbn in Hr1. lia.
Qed.

(** ** Captures *)

Lemma at_eol_single st :
  at_eol false st = true -> after st = [] \/ after st = [NL].
Proof.
  unfold at_eol. destruct (after st) as [|c t]; [left; reflexivity |].
  rewrite andb_true_iff. simpl. intros [Hc Ht]. right.
  apply N.eqb_eq in Hc. subst c. destruct t; [reflexivity | discriminate].
Qed.

(** [(.+)$] at the end of a pattern: group 1 holds at least one character
    and runs to the end of the subject, a final newline apart. *)
Lemma capture_to_eol p st st0 m :
  rmatch false (Seq (Group 1 (Plus (Chr p))) Eol) st
    (fun st' => Some (Match st0 st')) = Some m ->
  exists c g suf, after st = c :: g ++ suf /\ group 1 m = c :: g
                  /\ (suf = [] \/ suf = [NL]).
Proof.
  intros H. rewrite rmatch_seq, rmatch_group, rmatch_plus, rmatch_chr in H.
  destruct (after st) as [|c t] eqn:Ea; [discriminate |].
  destruct (p c); [| discriminate].
  apply rmatch_sound in H. destruct H as (st2 & Hr & H).
  rewrite rmatch_eol in H.
  destruct (at_eol _ _) eqn:Eeol; [| discriminate].
  injection H as <-. apply at_eol_single in Eeol. cbn in Eeol.
  assert (Hr' : reaches st st2).
  { eapply reaches_trans; [apply reaches_advance, Ea | exact Hr]. }
  pose proof (reaches_consumed _ _ Hr') as Hc. rewrite Ea in Hc.
  unfold group. cbn.
  destruct (consumed st st2) as [|c' g] eqn:Eg.
  - exfalso. simpl in Hc. apply reaches_length in Hr.
    cbn in Hr. rewrite <- Hc in Hr. simpl in Hr. lia.
  - simpl in Hc. injection Hc as <- Ht. exists c, g, (after st2).
    repeat split; [congruence | exact Eeol].
Qed.

(** The author captured from a stripped line is not blank. *)
Lemma capture_not_blank (l pre g suf : str) c :
  strip l = pre ++ c :: g ++ suf -> suf = [] \/ suf = [NL] ->
  nonempty (strip (c :: g)) = true.
Proof.
  intros Hs Hsuf.
  assert (Hb : blank (c :: g) = false); [| unfold blank in Hb;
    apply negb_false_iff in Hb; exact Hb].
  apply blank_false_iff.
  destruct Hsuf as [-> | ->].
  - rewrite app_nil_r in Hs.
    destruct (exists_last (l := c :: g)) as (g' & z & Hz); [discriminate |].
    exists z. split; [rewrite Hz; set_solver |].
    rewrite Hz, app_assoc in Hs. eapply strip_with_last. exact Hs.
  - exfalso.
    replace (pre ++ c :: g ++ [NL]) with ((pre ++ c :: g) ++ [NL]) in Hs
      by (rewrite <- app_assoc; reflexivity).
    apply strip_with_last in Hs. discriminate.
Qed.

Lemma by_re_author l m :
  re_match by_re (strip l) = Some m ->
  nonempty (strip (group 1 m)) = true.
Proof.
  unfold re_match, match_at, by_re. intros H.
  rewrite rmatch_seq, rmatch_bol in H.
  destruct (at_bol _ _); [| discriminate].
  rewrite rmatch_seq, rmatch_chr in H.
  destruct (after (start_of (strip l))) as [|c1 t1] eqn:E1; [discriminate |].
  destruct (one_of _ c1); [| discriminate].
  rewrite rmatch_seq, rmatch_chr in H. cbn [after advance] in H.
  destruct t1 as [|c2 t2]; [discriminate |].
  destruct (eqc _ c2); [| discriminate].
  rewrite rmatch_seq in H. apply rmatch_sound in H.
  destruct H as (st1 & Hr & H).
  apply capture_to_eol in H. destruct H as (c & g & suf & Ha & Hg & Hsuf).
  rewrite Hg. destruct Hr as (mid & Hmid & _). cbn in Hmid, E1.
  eapply (capture_not_blank l (c1 :: c2 :: mid)); [| exact Hsuf].
  rewrite E1, Hmid, Ha. reflexivity.
Qed.

(** ** parse_poem_chunk *)

(** Without two leading hyphens a line is no attribution. *)
Lemma trailing_re_needs_hyphens (s : str) :
  take 2 s <> py "--" -> re_match trailing_re s = None.
Proof.
  intros Hs. unfold re_match, match_at, trailing_re.
  rewrite rmatch_seq, rmatch_bol. unfold start_of at 1. cbn [at_bol before].
  rewrite rmatch_seq.
  change (Lit (py "--"))
    with (Seq (Chr (eqc HYPHEN)) (Seq (Chr (eqc HYPHEN)) Eps)).
  rewrite rmatch_seq, rmatch_chr. unfold start_of at 1. cbn [after].
  destruct s as [|c1 s]; [reflexivity |].
  unfold eqc at 1. destruct (N.eqb_spec c1 HYPHEN) as [-> |]; [| reflexivity].
  rewrite rmatch_seq, rmatch_chr. unfold start_of at 1. cbn [after advance].
  destruct s as [|c2 s]; [reflexivity |].
  unfold eqc at 1. destruct (N.eqb_spec c2 HYPHEN) as [-> |]; [| reflexivity].
  exfalso. apply Hs. reflexivity.
Qed.

(** C10, amended: a chunk of one line that, stripped, does not begin with
    two hyphens gives that line, stripped, as the title, no author and the
    empty string as the body. *)
Theorem single_line_chunk (raw l : str) :
  trimmed_lines raw = [l] ->
  take 2 (strip l) <> py "--" ->
  parse_poem_chunk raw = Ok (Some (Parsed (strip l) None [])).
Proof.
  intros Hl Hh. unfold parse_poem_chunk. rewrite Hl.
  rewrite bool_decide_eq_false_2 by discriminate.
  unfold take_trailing_author. cbn [List.last].
  rewrite (trailing_re_needs_hyphens _ Hh). reflexivity.
Qed.

Lemma single_line_chunk_witness :
  parse_poem_chunk (text_of [""; "  The Red Wheelbarrow "; ""]%string)
  = Ok (Some (Parsed (py "The Red Wheelbarrow") None [])).
Proof.
  apply (single_line_chunk _ (py "  The Red Wheelbarrow ")).
  - reflexivity.
  - vm_compute. discriminate.
Defined.

(** C10 as stated fails for a line that begins with white space and then
    two hyphens: the line does not begin with two hyphens, and no record
    is returned. *)
Lemma indented_hyphens_no_record :
  trimmed_lines indented_hyphens_chunk = [py "  --x"]
  /\ take 2 (py "  --x") <> py "--"
  /\ parse_poem_chunk indented_hyphens_chunk = Raise IndexError.
Proof. vm_compute. repeat split; discriminate. Qed.

(** C4, amended: when line 2 matches "By <name>" or "by <name>" and the
    line after it matches "Translated By <name>", the initial of each of
    the two words in either case and their other letters in lower case,
    that line is skipped too: the author stays the one of line 2 and the
    body starts one line later. *)
Theorem translated_by_line_skipped (raw : str) ta l1 l2 l3 rest name :
  take_trailing_author (trimmed_lines raw) = (ta, l1 :: l2 :: l3 :: rest) ->
  group 1 <$> re_match by_re (strip l2) = Some name ->
  is_Some (re_match translated_re (strip l3)) ->
  parse_poem_chunk raw
  = Ok (Some (Parsed (strip l1) (Some (strip name))
                (join_nl (pop_leading_blank rest)))).
Proof.
  intros Hlines Hby [m' Htr]. unfold parse_poem_chunk.
  destruct (re_match by_re (strip l2)) as [m|] eqn:Em; [| discriminate].
  injection Hby as <-.
  destruct (trimmed_lines raw) as [|l0 ls] eqn:E.
  - vm_compute in Hlines. discriminate.
  - rewrite bool_decide_eq_false_2 by discriminate.
    rewrite Hlines. cbn [bind classify_header].
    rewrite Em, Htr. cbn [truthy].
    rewrite (by_re_author _ _ Em). reflexivity.
Qed.

Lemma translated_by_line_skipped_witness :
  parse_poem_chunk
    (text_of ["from The Aeneid"; "By Virgil"; "translated by Robert Fagles";
              ""; "Wars and a man I sing"]%string)
  = Ok (Some (Parsed (py "from The Aeneid") (Some (py "Virgil"))
                (py "Wars and a man I sing"))).
Proof.
  apply (translated_by_line_skipped _ None (py "from The Aeneid")
           (py "By Virgil") (py "translated by Robert Fagles")
           [[]; py "Wars and a man I sing"] (py "Virgil")).
  - reflexivity.
  - reflexivity.
  - vm_compute. eexists. reflexivity.
Defined.

(** C4 as stated fails for a translator line in capitals: it matches
    "Translated By <name>" in some letter case, and stays in the body. *)
Lemma upper_case_translator_kept :
  is_Some (re_match by_re (py "by A B"))
  /\ is_Some (re_match translated_any_case_re (py "TRANSLATED BY X"))
  /\ parse_poem_chunk upper_case_translator_chunk
     = Ok (Some (Parsed (py "from T") (Some (py "A B"))
                   (text_of ["TRANSLATED BY X"; ""; "Body"]%string))).
Proof.
  vm_compute. repeat split; eexists; reflexivity.
Qed.

(** C2: a chunk that is nothing but an attribution line makes
    [parse_poem_chunk] raise: once the attribution is taken no line is
    left, and [lines[0]] fails. *)
Theorem attribution_only_raises :
  parse_poem_chunk attribution_only_chunk = Raise IndexError.
Proof. reflexivity. Qed.

(** C3: a known author on the first line and a blank second line give a
    record whose title is the empty string. *)
Theorem author_then_blank_title_empty :
  parse_poem_chunk author_then_blank_chunk
  = Ok (Some (Parsed [] (Some (py "Mary Oliver")) (py "Body text"))).
Proof. reflexivity. Qed.

(** C8: for a chunk whose only non-blank line is the attribution, no
    record with the attributed author is returned. *)
Theorem lone_attribution_raises :
  trimmed_lines lone_attribution_chunk = [py "-- Anonymous"]
  /\ option_map (group 1) (re_match trailing_re (py "-- Anonymous"))
     = Some (py "Anonymous")
  /\ parse_poem_chunk lone_attribution_chunk = Raise IndexError.
Proof. repeat split; reflexivity. Qed.

(** The conventions of the document, on the examples of the
    specification. *)
Example parse_title_by_author :
  parse_poem_chunk (text_of ["Title"; "By Author"; ""; "Line1"; "Line2"]%string)
  = Ok (Some (Parsed (py "Title") (Some (py "Author"))
                (text_of ["Line1"; "Line2"]%string))).
Proof. reflexivity. Qed.

Example parse_author_then_title :
  parse_poem_chunk
    (text_of ["Amiri Baraka"; "Some Poem Title"; ""; "Line1"]%string)
  = Ok (Some (Parsed (py "Some Poem Title") (Some (py "Amiri Baraka"))
                (py "Line1"))).
Proof. reflexivity. Qed.

Example parse_trailing_attribution :
  parse_poem_chunk
    (text_of ["Title"; ""; "Body text"; ""; "--Jane Doe"]%string)
  = Ok (Some (Parsed (py "Title") (Some (py "Jane Doe")) (py "Body text"))).
Proof. reflexivity. Qed.

Example known_author_with_parenthesis :
  _is_known_author (py "Rabia al-Basri (Rabia al- Adawiyya)") = true.
Proof. reflexivity. Qed.

(** ** Chunks are never blank *)

Lemma isspace_NL : isspace NL = true.
Proof. reflexivity. Qed.

(** A character other than the newline is on one of the lines. *)
Lemma split_nl_elem (s : str) c :
  c ∈ s -> c <> NL -> exists l, l ∈ split_nl s /\ c ∈ l.
Proof.
  induction s as [|a s IH]; intros Hin Hc; [inversion Hin |].
  cbn [split_nl]. destruct (N.eqb_spec a NL) as [-> | Ha].
  - apply elem_of_cons in Hin. destruct Hin as [-> | Hin]; [congruence |].
    destruct (IH Hin Hc) as (l & Hl & Hcl).
    exists l. split; [right; exact Hl | exact Hcl].
  - destruct (split_nl s) as [|l0 ls] eqn:E.
    + exists [a]. split; [left |].
      apply elem_of_cons in Hin. destruct Hin as [-> | Hin]; [left |].
      destruct (IH Hin Hc) as (l & Hl & _). inversion Hl.
    + apply elem_of_cons in Hin. destruct Hin as [-> | Hin].
      * exists (a :: l0). split; left.
      * destruct (IH Hin Hc) as (l & Hl & Hcl).
        apply elem_of_cons in Hl. destruct Hl as [-> | Hl].
        -- exists (a :: l0). split; [left | right; exact Hcl].
        -- exists l. split; [right; exact Hl | exact Hcl].
Qed.

Lemma pop_leading_blank_keeps (lines : list str) :
  (exists l, l ∈ lines /\ blank l = false) ->
  exists l ls, pop_leading_blank lines = l :: ls /\ blank l = false.
Proof.
  induction lines as [|a lines IH]; intros (l & Hin & Hl); [inversion Hin |].
  cbn [pop_leading_blank]. destruct (blank a) eqn:Ea.
  - apply IH. exists l. split; [| exact Hl].
    apply elem_of_cons in Hin.
    destruct Hin as [-> | Hin]; [congruence | exact Hin].
  - exists a, lines. split; [reflexivity | exact Ea].
Qed.

Lemma trimmed_lines_not_nil (raw : str) :
  blank raw = false -> trimmed_lines raw <> [].
Proof.
  intros Hraw. apply blank_false_iff in Hraw. destruct Hraw as (c & Hin & Hc).
  assert (Hnl : c <> NL) by (intros ->; discriminate).
  destruct (split_nl_elem _ _ Hin Hnl) as (l & Hl & Hcl).
  assert (Hbl : blank l = false) by (apply blank_false_iff; eauto).
  destruct (pop_leading_blank_keeps (split_nl raw)) as (l1 & ls1 & E1 & Hl1);
    [eauto |].
  unfold trimmed_lines, pop_trailing_blank. rewrite E1.
  destruct (pop_leading_blank_keeps (rev (l1 :: ls1))) as (l2 & ls2 & E2 & _).
  { exists l1. split; [| exact Hl1].
    apply list_elem_of_In. apply -> in_rev. left. reflexivity. }
  rewrite E2. intros H. apply (f_equal (@rev (list N))) in H.
  rewrite rev_involutive in H. discriminate.
Qed.

(** [parse_poem_chunk] returns [None] for the blank chunks only. *)
Lemma parse_poem_chunk_none (raw : str) :
  parse_poem_chunk raw = Ok None <-> trimmed_lines raw = [].
Proof.
  unfold parse_poem_chunk. split.
  - intros H. destruct (trimmed_lines raw) as [|l ls] eqn:E; [reflexivity |].
    rewrite bool_decide_eq_false_2 in H by discriminate.
    destruct (take_trailing_author _) as [ta lines].
    destruct lines as [|l0 lines]; [discriminate |].
    cbn [bind] in H. destruct (classify_header _ _) as [[t a] b].
    discriminate.
  - intros ->. reflexivity.
Qed.

Lemma strip_not_blank (s : str) :
  nonempty (strip s) = true -> blank (strip s) = false.
Proof.
  intros H. unfold blank, strip. rewrite strip_with_idem.
  apply negb_false_iff. exact H.
Qed.

Lemma split_on_trailing_author_rec_not_blank fuel (chunk : str) :
  blank chunk = false ->
  Forall (fun c => blank c = false) (split_on_trailing_author_rec fuel chunk).
Proof.
  revert chunk. induction fuel as [|fuel IH]; intros chunk Hc; cbn.
  - destruct (re_search _ _ _) as [m|]; [| auto].
    destruct (nonempty _ && nonempty _); auto.
  - destruct (re_search _ _ _) as [m|]; [| auto].
    destruct (nonempty (strip (take _ _))) eqn:E1; cbn [andb]; [| auto].
    destruct (nonempty (strip (drop _ _))) eqn:E2; [| auto].
    constructor; [apply strip_not_blank, E1 |].
    apply IH, strip_not_blank, E2.
Qed.

Lemma split_poems_not_blank (text : str) :
  Forall (fun c => blank c = false) (split_poems text).
Proof.
  unfold split_poems, primary_chunks. apply Forall_concat, Forall_map.
  rewrite Forall_map. apply List.Forall_forall. intros c Hin.
  apply list_elem_of_In, list_elem_of_filter in Hin. destruct Hin as [Hne _].
  apply split_on_trailing_author_rec_not_blank, strip_not_blank, Hne.
Qed.

(** ** When parse_poem_chunk raises *)

Lemma pop_leading_blank_head (lines : list str) l ls :
  pop_leading_blank lines = l :: ls -> blank l = false.
Proof.
  induction lines as [|a lines IH]; cbn [pop_leading_blank]; [discriminate |].
  destruct (blank a) eqn:Ea; [exact IH |]. intros [= <- _]. exact Ea.
Qed.

Lemma pop_leading_blank_nil (lines : list str) :
  pop_leading_blank lines = [] ->
  Forall (fun l => blank l = true) lines.
Proof.
  induction lines as [|a lines IH]; cbn [pop_leading_blank]; [constructor |].
  destruct (blank a) eqn:Ea; [| discriminate].
  intros H. constructor; [exact Ea | apply IH, H].
Qed.

(** A first line that is not blank stays through [pop_trailing_blank]. *)
Lemma pop_trailing_blank_cons (l : str) (ls : list str) :
  blank l = false -> exists ls', pop_trailing_blank (l :: ls) = l :: ls'.
Proof.
  intros Hl. unfold pop_trailing_blank.
  destruct (pop_leading_blank (rev (l :: ls))) as [|a t] eqn:E.
  - apply pop_leading_blank_nil in E. rewrite List.Forall_forall in E.
    rewrite (E l) in Hl; [discriminate |]. apply -> in_rev. left. reflexivity.
  - assert (Hsuf : exists pre, rev (l :: ls) = pre ++ a :: t).
    { clear Hl. revert E. generalize (rev (l :: ls)). intros L.
      induction L as [|b L IH]; cbn [pop_leading_blank]; [discriminate |].
      destruct (blank b).
      - intros H. destruct (IH H) as (pre & ->). exists (b :: pre). reflexivity.
      - intros <-. exists []. reflexivity. }
    destruct Hsuf as (pre & Hpre).
    apply (f_equal (@rev (list N))) in Hpre.
    rewrite rev_involutive, rev_app_distr in Hpre.
    destruct (rev (a :: t)) as [|x u] eqn:Er.
    + apply (f_equal (@length (list N))) in Er.
      rewrite length_rev in Er. discriminate.
    + cbn in Hpre. injection Hpre as -> _. exists u. reflexivity.
Qed.

Lemma trimmed_lines_head (raw : str) l ls :
  trimmed_lines raw = l :: ls -> blank l = false.
Proof.
  unfold trimmed_lines. intros H.
  destruct (pop_leading_blank (split_nl raw)) as [|a t] eqn:E.
  - discriminate.
  - pose proof (pop_leading_blank_head _ _ _ E) as Ha.
    destruct (pop_trailing_blank_cons a t Ha) as (t' & Ht').
    rewrite Ht' in H. injection H as <- _. exact Ha.
Qed.

(** [parse_poem_chunk] raises for the chunks whose only line that is not
    blank is an attribution, and for no other. *)
Lemma parse_poem_chunk_raises (raw : str) e :
  parse_poem_chunk raw = Raise e <->
  e = IndexError
  /\ exists l, trimmed_lines raw = [l]
               /\ is_Some (re_match trailing_re (strip l)).
Proof.
  unfold parse_poem_chunk. split.
  - destruct (trimmed_lines raw) as [|l0 ls] eqn:E; [discriminate |].
    rewrite bool_decide_eq_false_2 by discriminate.
    unfold take_trailing_author.
    destruct (re_match trailing_re _) as [m|] eqn:Em.
    + destruct ls as [|l1 ls].
      * intros H. change (pop_trailing_blank (removelast [l0]))
          with (@nil (list N)) in H.
        cbn [bind] in H. injection H as <-. split; [reflexivity |].
        exists l0. split; [reflexivity |]. cbn [List.last] in Em.
        rewrite Em. eauto.
      * pose proof (trimmed_lines_head _ _ _ E) as Hl0.
        change (removelast (l0 :: l1 :: ls))
          with (l0 :: removelast (l1 :: ls)).
        destruct (pop_trailing_blank_cons l0 (removelast (l1 :: ls)) Hl0)
          as (t & ->).
        cbn [bind]. destruct (classify_header _ _) as [[? ?] ?].
        discriminate.
    + cbn [bind]. destruct (classify_header _ _) as [[? ?] ?].
      discriminate.
  - intros (-> & l & -> & [m Hm]).
    rewrite bool_decide_eq_false_2 by discriminate.
    unfold take_trailing_author. cbn [List.last]. rewrite Hm. reflexivity.
Qed.

(** On a chunk that is not blank and not a lone attribution a record is
    returned. *)
Lemma parse_poem_chunk_returns (raw : str) :
  blank raw = false ->
  (forall l, trimmed_lines raw = [l] ->
             re_match trailing_re (strip l) = None) ->
  exists p, parse_poem_chunk raw = Ok (Some p).
Proof.
  intros Hb Hl. destruct (parse_poem_chunk raw) as [[p|]|e] eqn:E.
  - eauto.
  - apply parse_poem_chunk_none in E.
    apply trimmed_lines_not_nil in Hb. contradiction.
  - apply parse_poem_chunk_raises in E. destruct E as (_ & l & Hl1 & [m Hm]).
    rewrite (Hl l Hl1) in Hm. discriminate.
Qed.

(** ** The trailing attribution *)

Lemma trailing_re_author (l : str) m :
  re_match trailing_re (strip l) = Some m ->
  nonempty (strip (group 1 m)) = true.
Proof.
  unfold re_match, match_at, trailing_re. intros H.
  rewrite rmatch_seq, rmatch_bol in H.
  destruct (at_bol _ _); [| discriminate].
  rewrite rmatch_seq in H. apply rmatch_sound in H.
  destruct H as (st1 & (mid1 & Hmid1 & _) & H).
  rewrite rmatch_seq in H. apply rmatch_sound in H.
  destruct H as (st2 & (mid2 & Hmid2 & _) & H).
  apply capture_to_eol in H. destruct H as (c & g & suf & Ha & Hg & Hsuf).
  rewrite Hg. cbn [start_of after] in Hmid1.
  eapply (capture_not_blank l (mid1 ++ mid2)); [| exact Hsuf].
  rewrite Hmid1, Hmid2, Ha, <- app_assoc. reflexivity.
Qed.

Lemma known_author_nonempty (s : str) :
  _is_known_author s = true -> nonempty s = true.
Proof. destruct s; [vm_compute; discriminate | reflexivity]. Qed.

(** An author found in the header is never the empty string. *)
Lemma header_author_nonempty first_line (lines : list str) t a b :
  classify_header first_line lines = (t, Some a, b) -> nonempty a = true.
Proof.
  unfold classify_header.
  destruct lines as [|l0 [|l1 more]]; try discriminate.
  destruct (re_match by_re (strip l1)) as [m|] eqn:Em.
  - intros [= _ <- _]. eapply by_re_author. exact Em.
  - destruct (_is_known_author (strip l1)) eqn:E1.
    + intros [= _ <- _]. apply known_author_nonempty, E1.
    + destruct (_is_known_author first_line) eqn:E0; cbn [andb negb].
      * intros [= _ <- _]. apply known_author_nonempty, E0.
      * discriminate.
Qed.

(** C8 beyond the lone attribution: when other lines come before the
    attribution line, the line is taken off the chunk, the record is the
    one of the lines before it, and the attributed name is the author
    exactly when the header gives none. *)
Lemma trailing_attribution (raw : str) lines (l name : str) :
  trimmed_lines raw = lines ++ [l] ->
  lines <> [] ->
  group 1 <$> re_match trailing_re (strip l) = Some name ->
  exists l0 rest title header_author body_start,
    pop_trailing_blank lines = l0 :: rest
    /\ classify_header (strip l0) (l0 :: rest)
       = (title, header_author, body_start)
    /\ parse_poem_chunk raw
       = Ok (Some (Parsed title
                     (Some (default (strip name) header_author))
                     (join_nl (pop_leading_blank
                                 (drop body_start (l0 :: rest)))))).
Proof.
  intros Hlines Hne Hm.
  destruct (re_match trailing_re (strip l)) as [m|] eqn:Em; [| discriminate].
  injection Hm as <-.
  destruct lines as [|l0 ls]; [contradiction |].
  pose proof (trimmed_lines_head _ _ _ Hlines) as Hl0.
  destruct (pop_trailing_blank_cons l0 ls Hl0) as (rest & Hrest).
  destruct (classify_header (strip l0) (l0 :: rest)) as [[t ha] b] eqn:Ech.
  exists l0, rest, t, ha, b. split; [exact Hrest |]. split; [exact Ech |].
  unfold parse_poem_chunk. rewrite Hlines.
  rewrite bool_decide_eq_false_2 by discriminate.
  unfold take_trailing_author.
  rewrite (last_last (l0 :: ls) l []), Em, removelast_last, Hrest.
  cbn [bind]. rewrite Ech.
  destruct ha as [a|].
  - cbn [truthy]. rewrite (header_author_nonempty _ _ _ _ _ Ech).
    reflexivity.
  - cbn [truthy negb andb default]. rewrite (trailing_re_author _ _ Em).
    reflexivity.
Qed.

(** ** load_author_overrides *)

(** The exceptions of [get] are none of the two that are caught. *)
Lemma get_overrides_raises (data : json) e :
  get_overrides data = Raise e <->
  e = AttributeError /\ forall m, data <> JObject m.
Proof.
  destruct data; cbn [get_overrides]; split.
  all: try (intros [= <-]; split; [reflexivity | discriminate]).
  all: try (intros (-> & _); reflexivity).
  - discriminate.
  - intros (_ & H). exfalso. eapply H. reflexivity.
Qed.

(** C5, amended: whatever opening and loading the file does,
    [load_author_overrides] returns the empty mapping when that raises
    [FileNotFoundError] or [JSONDecodeError], and the entry "overrides" of
    the value loaded, the empty mapping for want of it, when that value
    is a dictionary.  It raises in the other cases and in no other: an
    exception of opening or loading that is none of these two is passed
    on, and a value loaded that is no dictionary gives
    [AttributeError]. *)
Theorem load_author_overrides_tolerant (open_and_load : result json) :
  (open_and_load = Raise FileNotFoundError
   \/ open_and_load = Raise JSONDecodeError ->
   load_author_overrides open_and_load = Ok (JObject ∅))
  /\ (forall m : gmap str json,
        open_and_load = Ok (JObject m) ->
        load_author_overrides open_and_load
        = Ok (default (JObject ∅) (m !! py "overrides")))
  /\ (forall e,
        load_author_overrides open_and_load = Raise e <->
        open_and_load = Raise e
        /\ e <> FileNotFoundError /\ e <> JSONDecodeError
        \/ e = AttributeError
           /\ exists data, open_and_load = Ok data
                           /\ forall m, data <> JObject m).
Proof.
  split; [| split].
  - intros [-> | ->]; reflexivity.
  - intros m ->. reflexivity.
  - intros e. unfold load_author_overrides.
    destruct open_and_load as [data | e0]; cbn [bind].
    + destruct (get_overrides data) as [v | e1] eqn:Eg.
      * split; [discriminate |].
        intros [([=] & _) | (-> & data' & [= <-] & Hd)].
        pose proof (proj2 (get_overrides_raises data AttributeError)
                      (conj eq_refl Hd)). congruence.
      * apply get_overrides_raises in Eg. destruct Eg as (-> & Hd).
        split.
        -- intros [= <-]. right. split; [reflexivity |].
           exists data. split; [reflexivity | exact Hd].
        -- intros [([=] & _) | (-> & _)]. reflexivity.
    + split.
      * intros H. left.
        destruct e0; try discriminate H; injection H as <-;
          repeat split; discriminate.
      * intros [([= ->] & H1 & H2) | (_ & data & [=] & _)].
        destruct e; try reflexivity; contradiction.
Qed.

Lemma load_author_overrides_tolerant_witness :
  load_author_overrides (Raise JSONDecodeError) = Ok (JObject ∅)
  /\ load_author_overrides
       (Ok (JObject {[ py "overrides" := JObject {[ py "a" := JString (py "B") ]} ]}))
     = Ok (JObject {[ py "a" := JString (py "B") ]}).
Proof.
  split.
  - apply (load_author_overrides_tolerant (Raise JSONDecodeError)).
    right. reflexivity.
  - rewrite (proj1 (proj2 (load_author_overrides_tolerant _)) _ eq_refl).
    rewrite lookup_singleton. reflexivity.
Defined.

(** C5 as stated fails for a file that exists and may not be read: the
    [PermissionError] of [open] is none of the two exceptions the
    function catches. *)
Lemma unreadable_store_raises :
  load_author_overrides (Raise PermissionError) = Raise PermissionError.
Proof. reflexivity. Qed.

(** ** fetch_and_parse *)

Section Assembler.
Variable normalize_NFKD : str -> str.

(** Over chunks none of which is blank the loop skips nothing, and the
    record of the chunk at position [i] has index [i + 1]. *)
Lemma parse_chunks_indices overrides chunks :
  Forall (fun c => blank c = false) chunks ->
  forall i poems, parse_chunks normalize_NFKD overrides i chunks = Ok poems ->
    map poem_index poems = seq (i + 1) (length chunks).
Proof.
  induction 1 as [|chunk chunks Hc _ IH]; intros i poems H.
  - injection H as <-. reflexivity.
  - cbn [parse_chunks] in H.
    destruct (parse_poem_chunk chunk) as [[p|]|e] eqn:Ep; cbn [bind] in H.
    + destruct (parse_chunks _ overrides (S i) chunks) as [rest|e] eqn:Er;
        [| discriminate].
      cbn [bind] in H. injection H as <-.
      cbn [map poem_index length seq]. f_equal.
      rewrite (IH _ _ Er). reflexivity.
    + apply parse_poem_chunk_none in Ep.
      apply trimmed_lines_not_nil in Hc. contradiction.
    + discriminate.
Qed.

(** C1: the records [fetch_and_parse] returns carry the indices 1, 2,
    ..., n in the order of emission; there is one record for each chunk
    of the document, no chunk being skipped. *)
Theorem indices_contiguous (text : str) (overrides : gmap str str) poems :
  fetch_and_parse normalize_NFKD text overrides = Ok poems ->
  map poem_index poems = seq 1 (length poems)
  /\ length poems = length (split_poems text).
Proof.
  intros H.
  pose proof (parse_chunks_indices overrides _
                (split_poems_not_blank text) 0 poems H) as Hi.
  assert (Hlen : length poems = length (split_poems text)).
  { apply (f_equal (@length nat)) in Hi.
    rewrite length_map, length_seq in Hi. exact Hi. }
  split; [rewrite Hlen; exact Hi | exact Hlen].
Qed.

Lemma parse_chunks_overrides overrides chunks :
  forall i poems, parse_chunks normalize_NFKD ∅ i chunks = Ok poems ->
    parse_chunks normalize_NFKD overrides i chunks
    = Ok (map (overridden overrides) poems).
Proof.
  induction chunks as [|chunk chunks IH]; intros i poems H.
  - injection H as <-. reflexivity.
  - cbn [parse_chunks] in *.
    destruct (parse_poem_chunk chunk) as [[p|]|e]; cbn [bind] in *.
    + destruct (parse_chunks _ ∅ (S i) chunks) as [rest|e] eqn:Er;
        [| discriminate].
      rewrite (IH _ _ Er). cbn [bind] in *. injection H as <-.
      rewrite lookup_empty. cbn [map]. f_equal. f_equal.
      unfold overridden.
      cbn [poem_index poem_title poem_author poem_slug poem_body].
      destruct (overrides !! _); reflexivity.
    + apply IH. exact H.
    + discriminate.
Qed.

(** C9: with an override map the records are those of the run without
    overrides, the author replaced by the mapped value exactly for the
    records whose slug the map contains; title, body, slug and index
    are the same. *)
Theorem overrides_change_author_only (text : str)
    (overrides : gmap str str) poems0 :
  fetch_and_parse normalize_NFKD text ∅ = Ok poems0 ->
  exists poems,
    fetch_and_parse normalize_NFKD text overrides = Ok poems
    /\ Forall2 (fun p0 p =>
          poem_title p = poem_title p0
          /\ poem_body p = poem_body p0
          /\ poem_slug p = poem_slug p0
          /\ poem_index p = poem_index p0
          /\ poem_author p = match overrides !! poem_slug p0 with
                             | Some a => Some a
                             | None => poem_author p0
                             end) poems0 poems.
Proof.
  intros H. exists (map (overridden overrides) poems0). split.
  - apply parse_chunks_overrides. exact H.
  - clear H. induction poems0 as [|p0 poems0 IH]; constructor.
    + repeat split.
    + exact IH.
Qed.
End Assembler.

Lemma indices_contiguous_witness :
  map poem_index
    [Poem 1 (py "A") None (py "a") [];
     Poem 2 (py "B b") (Some (py "Me")) (py "b-b") []] = seq 1 2
  /\ 2 = length (split_poems (text_of ["A"; "____"; "B b"; "By Me"]%string)).
Proof.
  apply (indices_contiguous (fun s => s)
           (text_of ["A"; "____"; "B b"; "By Me"]%string) ∅).
  vm_compute. reflexivity.
Defined.

Lemma overrides_change_author_only_witness :
  exists poems,
    fetch_and_parse (fun s => s)
      (text_of ["A"; "____"; "B b"; "By Me"]%string)
      {[ py "a" := py "Someone" ]} = Ok poems
    /\ Forall2 (fun p0 p =>
          poem_title p = poem_title p0
          /\ poem_body p = poem_body p0
          /\ poem_slug p = poem_slug p0
          /\ poem_index p = poem_index p0
          /\ poem_author p
             = match ({[ py "a" := py "Someone" ]} : gmap str str)
                     !! poem_slug p0 with
               | Some a => Some a
               | None => poem_author p0
               end)
         [Poem 1 (py "A") None (py "a") [];
          Poem 2 (py "B b") (Some (py "Me")) (py "b-b") []] poems.
Proof.
  apply (overrides_change_author_only (fun s => s)).
  vm_compute. reflexivity.
Defined.

(** [fetch_and_parse] returns when no chunk makes [parse_poem_chunk]
    raise. *)
Lemma fetch_and_parse_returns (normalize_NFKD : str -> str) (text : str)
    (overrides : gmap str str) :
  Forall (fun c => forall e, parse_poem_chunk c <> Raise e)
    (split_poems text) ->
  exists poems, fetch_and_parse normalize_NFKD text overrides = Ok poems.
Proof.
  unfold fetch_and_parse. generalize 0. generalize (split_poems text).
  intros chunks i H. revert i.
  induction H as [|chunk chunks Hc _ IH]; intros i; [eexists; reflexivity |].
  cbn [parse_chunks].
  destruct (parse_poem_chunk chunk) as [[p|]|e]; cbn [bind].
  - destruct (IH (S i)) as (poems & ->). eexists. reflexivity.
  - apply IH.
  - exfalso. apply (Hc e). reflexivity.
Qed.

Example override_applied :
  fetch_and_parse (fun s => s) (text_of ["Some Poem"; ""; "Line1"]%string)
    {[ py "some-poem" := py "Corrected Author" ]}
  = Ok [Poem 1 (py "Some Poem") (Some (py "Corrected Author"))
          (py "some-poem") (py "Line1")].
Proof. vm_compute. reflexivity. Qed.

(** ** split_poems *)

(** [re.split] gives one piece more than there are matches. *)
Lemma length_pieces (aft : str) ms : length (pieces aft ms) = S (length ms).
Proof.
  revert aft. induction ms as [|m ms IH]; intros aft; [reflexivity |].
  cbn [pieces length]. rewrite IH. reflexivity.
Qed.

Lemma length_re_split r (s : str) :
  length (re_split r s) = S (length (finditer r s)).
Proof. apply length_pieces. Qed.

Lemma length_filter_blank (chunks : list str) :
  length (filter (fun c => nonempty (strip c) = true) chunks)
  = length chunks - length (filter (fun c => blank c = true) chunks).
Proof.
  induction chunks as [|c chunks IH]; [reflexivity |].
  pose proof (length_filter (fun c => blank c = true) chunks) as Hle.
  destruct (nonempty (strip c)) eqn:E.
  - rewrite filter_cons_True by exact E.
    rewrite (filter_cons_False (fun c => blank c = true))
      by (unfold blank; rewrite E; discriminate).
    cbn [length]. rewrite IH. lia.
  - rewrite filter_cons_False by (rewrite E; discriminate).
    rewrite (filter_cons_True (fun c => blank c = true))
      by (unfold blank; rewrite E; reflexivity).
    cbn [length]. rewrite IH. lia.
Qed.

Lemma length_concat_singletons (f : str -> list str) chunks :
  Forall (fun c => f c = [c]) chunks ->
  length (concat (map f chunks)) = length chunks.
Proof.
  induction 1 as [|c chunks Hc _ IH]; [reflexivity |].
  cbn [map concat]. rewrite length_app, Hc, IH. reflexivity.
Qed.

(** The number of chunks counted from the matches of the pattern, a
    newline, four or more underscores and an optional newline: when the
    trailing-attribution split leaves every chunk whole, [split_poems]
    returns one chunk more than there are matches, less the pieces
    between the matches that are empty after trimming. *)
Lemma split_poems_count (text : str) :
  Forall (fun c => _split_on_trailing_author c = [c]) (primary_chunks text) ->
  length (split_poems text)
  = S (length (finditer delimiter_re text))
    - length (filter (fun c => blank c = true) (re_split delimiter_re text)).
Proof.
  intros H. unfold split_poems.
  rewrite (length_concat_singletons _ _ H).
  unfold primary_chunks. rewrite length_map, length_filter_blank.
  rewrite length_re_split. reflexivity.
Qed.

Example split_poems_count_sample :
  length (split_poems (text_of ["A"; "By X"; "_____"; ""; "____"; "B"]%string))
  = 2.
Proof.
  apply (split_poems_count
           (text_of ["A"; "By X"; "_____"; ""; "____"; "B"]%string)).
  vm_compute. repeat constructor.
Qed.

(** C6: the document of the three lines "a", "____" and "____" has two
    delimiter lines and three sections, two of them empty, and no
    attribution in it, so that one chunk is to be returned.
    [split_poems] returns two, the second one the last delimiter line
    itself: the pattern takes the newline that ends the first delimiter
    line, and the second is left without the newline that has to come
    before it.  Counting the pieces of the split of the code as the empty
    ones does not give the number either. *)
Theorem adjacent_delimiter_lines :
  delimiter_lines two_rules_document = 2
  /\ blank_sections two_rules_document = 2
  /\ Forall (fun c => _split_on_trailing_author c = [c])
       (primary_chunks two_rules_document)
  /\ split_poems two_rules_document = [py "a"; py "____"]
  /\ length (split_poems two_rules_document)
     <> S (delimiter_lines two_rules_document)
        - blank_sections two_rules_document
  /\ length (split_poems two_rules_document)
     <> S (delimiter_lines two_rules_document)
        - length (filter (fun c => blank c = true)
                    (re_split delimiter_re two_rules_document)).
Proof.
  vm_compute. repeat split; try discriminate. repeat constructor.
Qed.

(** A chunk that holds two poems is split after the attribution of the
    first. *)
Example split_two_poem_chunk :
  split_poems
    (text_of ["Title1"; ""; "Body1"; ""; "--Author1"; ""; "";
              "Title2"; "By Author2"; ""; "Body2"]%string)
  = [text_of ["Title1"; ""; "Body1"; ""; "--Author1"]%string;
     text_of ["Title2"; "By Author2"; ""; "Body2"]%string].
Proof. vm_compute. reflexivity. Qed.

(** ** slugify *)

(** A starred class before a continuation that accepts any position takes
    the whole run. *)
Lemma star_chr_greedy {A : Type} multiline p (k : cursor -> option A) :
  (forall st, is_Some (k st)) ->
  forall fuel st, length (after st) <= fuel ->
    star_loop (rmatch multiline (Chr p)) fuel st k
    = k (skip p (before st) (after st) (groups st)).
Proof.
  intros Hk fuel. induction fuel as [|fuel IH]; intros [bef aft g] Hlen;
    cbn [before after groups] in *.
  - destruct aft; [reflexivity | cbn in Hlen; lia].
  - cbn [star_loop]. rewrite rmatch_chr. cbn [after].
    destruct aft as [|c t]; [reflexivity |].
    cbn [skip]. destruct (p c); [| reflexivity].
    cbn [advance after before groups length].
    rewrite (proj2 (Nat.ltb_lt _ _)) by lia.
    rewrite IH by (cbn in *; lia). unfold advance. cbn [before after groups].
    destruct (Hk (skip p (c :: bef) t g)) as [x ->]. reflexivity.
Qed.

Lemma after_skip p bef aft g :
  after (skip p bef aft g) = lstrip_with p aft.
Proof.
  revert bef. induction aft as [|c t IH]; intros bef; [reflexivity |].
  cbn [skip lstrip_with]. destruct (p c); [apply IH | reflexivity].
Qed.

Lemma length_lstrip_with p (s : str) : length (lstrip_with p s) <= length s.
Proof.
  destruct (lstrip_with_split p s) as (pre & Heq & _).
  rewrite Heq at 2. rewrite length_app. lia.
Qed.

(** A match of [[p]+] at one position. *)
Lemma match_at_run p bef aft :
  match_at false (Plus (Chr p)) (Cursor bef aft [])
  = match aft with
    | c :: t =>
        if p c
        then Some (Match (Cursor bef aft []) (skip p (c :: bef) t []))
        else None
    | [] => None
    end.
Proof.
  unfold match_at. rewrite rmatch_plus, rmatch_chr. cbn [after].
  destruct aft as [|c t]; [reflexivity |].
  destruct (p c); [| reflexivity].
  rewrite rmatch_star, star_chr_greedy; [reflexivity | | reflexivity].
  intros st. eexists. reflexivity.
Qed.

Lemma collapse_runs_in_run p (s : str) :
  collapse_runs p true s = collapse_runs p false (lstrip_with p s).
Proof.
  induction s as [|c t IH]; [reflexivity |].
  cbn [collapse_runs lstrip_with]. destruct (p c) eqn:E; [exact IH |].
  cbn [collapse_runs]. rewrite E. reflexivity.
Qed.

(** [re.sub] with the pattern [[p]+] and the direct function agree. *)
Lemma replaced_runs p fuel :
  forall bef aft pre, length aft < fuel ->
    replaced [HYPHEN] (pre ++ aft)
      (finditer_from false (Plus (Chr p)) fuel bef aft)
    = pre ++ collapse_runs p false aft.
Proof.
  induction fuel as [|fuel IH]; intros bef aft pre Hlen; [lia |].
  cbn [finditer_from]. rewrite match_at_run.
  destruct aft as [|c t].
  - cbn [replaced collapse_runs]. reflexivity.
  - cbn [collapse_runs]. cbn [length] in Hlen. destruct (p c) eqn:E.
    + cbn [m_end]. rewrite after_skip.
      pose proof (length_lstrip_with p t) as Hle.
      rewrite (proj2 (Nat.ltb_lt _ _)) by (cbn [length]; lia).
      cbn [replaced m_start m_end]. rewrite after_skip.
      unfold upto. cbn [m_start after].
      rewrite length_app, Nat.add_sub, take_app_length.
      pose proof (IH (before (skip p (c :: bef) t [])) (lstrip_with p t) [])
        as IH'.
      cbn [app] in IH'. rewrite IH' by lia.
      rewrite collapse_runs_in_run. reflexivity.
    + replace (pre ++ c :: t) with ((pre ++ [c]) ++ t)
        by (rewrite <- app_assoc; reflexivity).
      rewrite IH by lia. rewrite <- app_assoc. reflexivity.
Qed.

Lemma re_sub_runs p (s : str) :
  re_sub (Plus (Chr p)) [HYPHEN] s = collapse_runs p false s.
Proof.
  unfold re_sub, finditer.
  apply (replaced_runs p (S (length s)) [] s []). lia.
Qed.

Lemma slug_alnum_not_hyphen c : is_slug_alnum c = true -> eqc HYPHEN c = false.
Proof.
  unfold is_slug_alnum, eqc, HYPHEN. intros H.
  apply N.eqb_neq. intros ->. discriminate.
Qed.

Lemma slug_alnum_not_upper c : is_slug_alnum c = true -> is_upper c = false.
Proof.
  unfold is_slug_alnum, is_upper.
  rewrite orb_true_iff, !andb_true_iff, andb_false_iff, !N.leb_le, !N.leb_gt.
  lia.
Qed.

Lemma slug_alnum_not_space c : is_slug_alnum c = true -> isspace c = false.
Proof.
  unfold is_slug_alnum. rewrite orb_true_iff, !andb_true_iff, !N.leb_le.
  intros H. unfold isspace.
  repeat match goal with
         | |- context [(?a <=? ?b)%N] => destruct (N.leb_spec a b)
         | |- context [(?a =? ?b)%N] => destruct (N.eqb_spec a b)
         end; try reflexivity; lia.
Qed.

Lemma slug_alnum_ascii c : is_slug_alnum c = true -> is_ascii c = true.
Proof.
  unfold is_slug_alnum, is_ascii.
  rewrite orb_true_iff, !andb_true_iff, !N.leb_le, N.ltb_lt. lia.
Qed.

(** What [re.sub] leaves: letters, digits and hyphens. *)
Lemma collapse_runs_charset b (s : str) :
  Forall (fun c => is_slug_alnum c = true \/ c = HYPHEN)
    (collapse_runs non_alnum b s).
Proof.
  revert b. induction s as [|c t IH]; intros b; [constructor |].
  cbn [collapse_runs]. change (non_alnum c) with (negb (is_slug_alnum c)).
  destruct (is_slug_alnum c) eqn:E; cbn [negb].
  - constructor; [left; exact E | apply IH].
  - destruct b; [apply IH |]. constructor; [right; reflexivity | apply IH].
Qed.

(** No two hyphens follow each other, and none comes first while a run is
    being read. *)
Lemma collapse_runs_single b (s : str) :
  adjacent_hyphens (collapse_runs non_alnum b s) = false
  /\ (b = true -> head (collapse_runs non_alnum b s) <> Some HYPHEN).
Proof.
  revert b. induction s as [|c t IH]; intros b.
  - split; [reflexivity | discriminate].
  - cbn [collapse_runs]. change (non_alnum c) with (negb (is_slug_alnum c)).
    destruct (is_slug_alnum c) eqn:E; cbn [negb].
    + destruct (IH false) as [IHa _]. split.
      * cbn [adjacent_hyphens].
        destruct (collapse_runs non_alnum false t) eqn:Et; [reflexivity |].
        rewrite (slug_alnum_not_hyphen _ E). exact IHa.
      * intros _ [= ->]. discriminate.
    + destruct (IH true) as [IHa IHh]. destruct b; [split; auto |].
      split; [| discriminate].
      cbn [adjacent_hyphens].
      destruct (collapse_runs non_alnum true t) as [|c2 u]; [reflexivity |].
      rewrite IHa, orb_false_r. apply andb_false_iff. right.
      unfold eqc. apply N.eqb_neq. intros ->. apply IHh; reflexivity.
Qed.

(** A string of letters, digits and single hyphens is left as it is. *)
Lemma collapse_runs_fixed (s : str) :
  Forall (fun c => is_slug_alnum c = true \/ c = HYPHEN) s ->
  adjacent_hyphens s = false ->
  collapse_runs non_alnum false s = s.
Proof.
  induction 1 as [|c t Hc Ht IH]; intros Hadj; [reflexivity |].
  assert (Hadj' : adjacent_hyphens t = false).
  { cbn [adjacent_hyphens] in Hadj. destruct t; [reflexivity |].
    apply orb_false_iff in Hadj. tauto. }
  cbn [collapse_runs]. change (non_alnum c) with (negb (is_slug_alnum c)).
  destruct Hc as [Hc | ->].
  - rewrite Hc. cbn [negb]. rewrite IH by exact Hadj'. reflexivity.
  - cbn [negb is_slug_alnum]. change (is_slug_alnum HYPHEN) with false.
    cbn [negb]. f_equal.
    rewrite collapse_runs_in_run.
    destruct t as [|c2 u]; [reflexivity |].
    cbn [adjacent_hyphens] in Hadj. apply orb_false_iff in Hadj.
    destruct Hadj as [Hc2 _]. cbn in Hc2.
    inversion Ht as [|? ? Hc2' _]. subst.
    rewrite lstrip_with_fixed; [apply IH, Hadj' |].
    intros c' t' [= <- <-]. destruct Hc2' as [Hc2' | ->].
    + unfold non_alnum. rewrite Hc2'. reflexivity.
    + discriminate.
Qed.

Lemma adjacent_hyphens_cons c (s : str) :
  adjacent_hyphens (c :: s) = false -> adjacent_hyphens s = false.
Proof.
  cbn [adjacent_hyphens]. destruct s; [reflexivity |].
  intros H. apply orb_false_iff in H. tauto.
Qed.

Lemma adjacent_hyphens_app (a b : str) :
  adjacent_hyphens (a ++ b) = false ->
  adjacent_hyphens a = false /\ adjacent_hyphens b = false.
Proof.
  induction a as [|c a IH]; intros H; [split; [reflexivity | exact H] |].
  destruct (IH (adjacent_hyphens_cons _ _ H)) as [Ha Hb].
  split; [| exact Hb].
  destruct a as [|c2 a]; [reflexivity |].
  cbn [app adjacent_hyphens] in H |- *.
  apply orb_false_iff in H. destruct H as [H _].
  rewrite H. exact Ha.
Qed.

Lemma ascii_ignore_fixed (s : str) :
  Forall (fun c => is_ascii c = true) s -> ascii_ignore s = s.
Proof.
  unfold ascii_ignore. induction 1 as [|c t Hc _ IH]; [reflexivity |].
  rewrite filter_cons_True by exact Hc. rewrite IH. reflexivity.
Qed.

Lemma lower_fixed (s : str) :
  Forall (fun c => is_upper c = false) s -> lower s = s.
Proof.
  unfold lower. induction 1 as [|c t Hc _ IH]; [reflexivity |].
  cbn [map]. rewrite IH. unfold lower_char.
  unfold is_upper in Hc. rewrite Hc. reflexivity.
Qed.

Section Slug.
Variable normalize_NFKD : str -> str.

(** What is known of the decomposition: it changes no ASCII string. *)
Hypothesis NFKD_ascii :
  forall s : str, Forall (fun c => is_ascii c = true) s -> normalize_NFKD s = s.

Lemma slugify_charset (text : str) :
  Forall (fun c => is_slug_alnum c = true \/ c = HYPHEN)
    (slugify normalize_NFKD text).
Proof.
  unfold slugify, non_alnum_run. rewrite re_sub_runs.
  destruct (strip_with_infix (eqc HYPHEN)
              (collapse_runs non_alnum false
                 (lower (ascii_ignore (normalize_NFKD text)))))
    as (pre & suf & Heq).
  pose proof (collapse_runs_charset false
                (lower (ascii_ignore (normalize_NFKD text)))) as H.
  cbv zeta in H. rewrite Heq in H.
  apply Forall_app in H. destruct H as [_ H].
  apply Forall_app in H. destruct H as [H _]. exact H.
Qed.

Lemma slugify_single_hyphens (text : str) :
  adjacent_hyphens (slugify normalize_NFKD text) = false.
Proof.
  unfold slugify, non_alnum_run. rewrite re_sub_runs.
  destruct (strip_with_infix (eqc HYPHEN)
              (collapse_runs non_alnum false
                 (lower (ascii_ignore (normalize_NFKD text)))))
    as (pre & suf & Heq).
  destruct (collapse_runs_single false
              (lower (ascii_ignore (normalize_NFKD text)))) as [H _].
  cbv zeta in H. rewrite Heq in H.
  apply adjacent_hyphens_app in H. destruct H as [_ H].
  apply adjacent_hyphens_app in H. destruct H as [H _]. exact H.
Qed.

(** C7: a slug holds lower-case ASCII letters, digits and hyphens only,
    hence no upper-case letter and no white space; it neither starts nor
    ends with a hyphen and has no two hyphens in a row; and it is its own
    slug.  This holds of every title, those made of ASCII letters, digits
    and spaces among them. *)
Theorem slugify_canonical (text : str) :
  Forall (fun c => is_slug_alnum c = true \/ c = HYPHEN)
    (slugify normalize_NFKD text)
  /\ Forall (fun c => is_upper c = false /\ isspace c = false)
       (slugify normalize_NFKD text)
  /\ head (slugify normalize_NFKD text) <> Some HYPHEN
  /\ last (slugify normalize_NFKD text) <> Some HYPHEN
  /\ adjacent_hyphens (slugify normalize_NFKD text) = false
  /\ slugify normalize_NFKD (slugify normalize_NFKD text)
     = slugify normalize_NFKD text.
Proof.
  pose proof (slugify_charset text) as Hcs.
  pose proof (slugify_single_hyphens text) as Hadj.
  split; [exact Hcs |]. split; [| split; [| split; [| split]]].
  - eapply Forall_impl; [exact Hcs |]. intros c [Hc | ->].
    + split; [apply slug_alnum_not_upper | apply slug_alnum_not_space];
        exact Hc.
    + split; reflexivity.
  - unfold slugify.
    destruct (strip_with _ _) as [|c t] eqn:E; [discriminate |].
    apply strip_with_head in E. intros [= ->]. discriminate.
  - unfold slugify. intros H. apply last_Some in H. destruct H as [t H].
    apply strip_with_last in H. discriminate.
  - exact Hadj.
  - set (slug := slugify normalize_NFKD text) in *.
    unfold slugify at 1.
    rewrite NFKD_ascii, ascii_ignore_fixed, lower_fixed.
    + unfold non_alnum_run. rewrite re_sub_runs.
      rewrite collapse_runs_fixed by assumption.
      unfold slug, slugify. apply strip_with_idem.
    + eapply Forall_impl; [exact Hcs |]. intros c [Hc | ->];
        [apply slug_alnum_not_upper, Hc | reflexivity].
    + eapply Forall_impl; [exact Hcs |]. intros c [Hc | ->];
        [apply slug_alnum_ascii, Hc | reflexivity].
    + eapply Forall_impl; [exact Hcs |]. intros c [Hc | ->];
        [apply slug_alnum_ascii, Hc | reflexivity].
Qed.
End Slug.

Lemma slugify_canonical_witness :
  Forall (fun c => is_slug_alnum c = true \/ c = HYPHEN)
    (slugify (fun s => s) (py "  Ode to   a Nightingale 2 "))
  /\ Forall (fun c => is_upper c = false /\ isspace c = false)
       (slugify (fun s => s) (py "  Ode to   a Nightingale 2 "))
  /\ head (slugify (fun s => s) (py "  Ode to   a Nightingale 2 "))
     <> Some HYPHEN
  /\ last (slugify (fun s => s) (py "  Ode to   a Nightingale 2 "))
     <> Some HYPHEN
  /\ adjacent_hyphens (slugify (fun s => s) (py "  Ode to   a Nightingale 2 "))
     = false
  /\ slugify (fun s => s)
       (slugify (fun s => s) (py "  Ode to   a Nightingale 2 "))
     = slugify (fun s => s) (py "  Ode to   a Nightingale 2 ").
Proof.
  apply (slugify_canonical (fun s => s)). intros s _. reflexivity.
Defined.

Example slugify_sample :
  slugify (fun s => s) (py "  Ode to   a Nightingale 2 ")
  = py "ode-to-a-nightingale-2".
Proof. vm_compute. reflexivity. Qed.


(** * Further properties *)

(** ** Lines *)

Lemma split_nl_not_nil (s : str) : split_nl s <> [].
Proof.
  destruct s as [|c t]; cbn [split_nl]; [discriminate |].
  destruct (c =? NL)%N; [discriminate |].
  destruct (split_nl t); discriminate.
Qed.

(** The lines of [s.split("\n")] hold no newline. *)
Lemma split_nl_no_newline (s : str) :
  Forall (fun l => NL ∉ l) (split_nl s).
Proof.
  induction s as [|c t IH]; cbn [split_nl].
  - repeat constructor. intros H. inversion H.
  - destruct (N.eqb_spec c NL) as [-> | Hc].
    + constructor; [intros H; inversion H | exact IH].
    + destruct (split_nl t) as [|l ls]; [repeat constructor |].
      * intros H. apply elem_of_cons in H. destruct H as [H | H];
          [congruence | inversion H].
      * inversion IH as [|? ? Hl Hls]; subst. constructor; [| exact Hls].
        intros H. apply elem_of_cons in H. destruct H as [H | H];
          [congruence | contradiction].
Qed.

(** The characters of the lines are characters of the string. *)
Lemma split_nl_chars (s : str) l c : l ∈ split_nl s -> c ∈ l -> c ∈ s.
Proof.
  revert l. induction s as [|a t IH]; intros l Hl Hc; cbn [split_nl] in Hl.
  - apply list_elem_of_singleton in Hl. subst. inversion Hc.
  - destruct (N.eqb_spec a NL) as [-> | Ha].
    + apply elem_of_cons in Hl. destruct Hl as [-> | Hl]; [inversion Hc |].
      right. eapply IH; eassumption.
    + destruct (split_nl t) as [|l0 ls] eqn:E.
      * apply list_elem_of_singleton in Hl. subst.
        apply list_elem_of_singleton in Hc. subst. left.
      * apply elem_of_cons in Hl. destruct Hl as [-> | Hl].
        -- apply elem_of_cons in Hc. destruct Hc as [-> | Hc]; [left |].
           right. apply (IH l0); [left | exact Hc].
        -- right. apply (IH l); [right; exact Hl | exact Hc].
Qed.

(** Joining the lines gives the string back. *)
Lemma join_split_nl (s : str) : join_nl (split_nl s) = s.
Proof.
  induction s as [|c t IH]; [reflexivity |]. cbn [split_nl].
  destruct (N.eqb_spec c NL) as [-> | Hc].
  - pose proof (split_nl_not_nil t) as Hne.
    destruct (split_nl t) as [|l ls] eqn:E; [contradiction |].
    cbn [join_nl app]. cbn [join_nl] in IH. rewrite IH. reflexivity.
  - pose proof (split_nl_not_nil t) as Hne.
    destruct (split_nl t) as [|l ls] eqn:E; [contradiction |].
    destruct ls as [|l' ls]; cbn [join_nl app] in *; rewrite IH; reflexivity.
Qed.

Lemma split_nl_app_line (l s : str) :
  NL ∉ l -> split_nl (l ++ NL :: s) = l :: split_nl s.
Proof.
  induction l as [|c l IH]; intros Hl.
  - reflexivity.
  - cbn [app split_nl].
    destruct (N.eqb_spec c NL) as [-> | Hc]; [exfalso; apply Hl; left |].
    rewrite IH; [reflexivity |]. intros H. apply Hl. right. exact H.
Qed.

Lemma split_nl_line (l : str) : NL ∉ l -> split_nl l = [l].
Proof.
  induction l as [|c l IH]; intros Hl; [reflexivity |].
  cbn [split_nl].
  destruct (N.eqb_spec c NL) as [-> | Hc]; [exfalso; apply Hl; left |].
  rewrite IH; [reflexivity |]. intros H. apply Hl. right. exact H.
Qed.

(** Splitting the joined lines gives the lines back, when there is at
    least one line and no line holds a newline. *)
Lemma split_join_nl (ls : list str) :
  ls <> [] -> Forall (fun l => NL ∉ l) ls -> split_nl (join_nl ls) = ls.
Proof.
  induction ls as [|l ls IH]; intros Hne Hall; [contradiction |].
  inversion Hall as [|? ? Hl Hls]; subst.
  destruct ls as [|l' ls].
  - cbn [join_nl]. apply split_nl_line, Hl.
  - change (join_nl (l :: l' :: ls)) with (l ++ NL :: join_nl (l' :: ls)).
    rewrite split_nl_app_line by exact Hl.
    rewrite IH; [reflexivity | discriminate | exact Hls].
Qed.

Lemma blank_true_iff (l : str) :
  blank l = true <-> Forall (fun c => isspace c = true) l.
Proof.
  unfold blank. rewrite negb_true_iff. unfold strip.
  rewrite <- strip_with_nil.
  destruct (strip_with isspace l); cbn [nonempty]; split; intros H;
    first [reflexivity | discriminate].
Qed.

Lemma pop_leading_blank_all (lines : list str) :
  Forall (fun l => blank l = true) lines -> pop_leading_blank lines = [].
Proof.
  induction 1 as [|l ls Hl _ IH]; [reflexivity |].
  cbn [pop_leading_blank]. rewrite Hl. exact IH.
Qed.

(** What [pop_leading_blank] drops is a run of blank lines at the start. *)
Lemma pop_leading_blank_split (lines : list str) :
  exists pre, lines = pre ++ pop_leading_blank lines
              /\ Forall (fun l => blank l = true) pre.
Proof.
  induction lines as [|l ls IH]; cbn [pop_leading_blank].
  - exists []. split; [reflexivity | constructor].
  - destruct (blank l) eqn:E.
    + destruct IH as (pre & Heq & Hall). exists (l :: pre). split.
      * cbn [app]. congruence.
      * constructor; assumption.
    + exists []. split; [reflexivity | constructor].
Qed.

Lemma pop_trailing_blank_split (lines : list str) :
  exists suf, lines = pop_trailing_blank lines ++ suf
              /\ Forall (fun l => blank l = true) suf.
Proof.
  unfold pop_trailing_blank.
  destruct (pop_leading_blank_split (rev lines)) as (pre & Heq & Hall).
  exists (rev pre). split.
  - rewrite <- rev_app_distr, <- Heq, rev_involutive. reflexivity.
  - apply Forall_rev. exact Hall.
Qed.

Lemma pop_trailing_blank_last (lines : list str) t l :
  pop_trailing_blank lines = t ++ [l] -> blank l = false.
Proof.
  unfold pop_trailing_blank. intros H.
  apply (f_equal (@rev (list N))) in H.
  rewrite rev_involutive, rev_app_distr in H. cbn in H.
  eapply pop_leading_blank_head. exact H.
Qed.

Lemma trimmed_lines_blank (raw : str) :
  blank raw = true -> trimmed_lines raw = [].
Proof.
  intros Hb. apply blank_true_iff in Hb.
  unfold trimmed_lines. rewrite pop_leading_blank_all; [reflexivity |].
  apply List.Forall_forall. intros l Hl. apply blank_true_iff.
  apply List.Forall_forall. intros c Hc.
  rewrite List.Forall_forall in Hb. apply Hb.
  apply list_elem_of_In. eapply split_nl_chars; apply list_elem_of_In;
    eassumption.
Qed.

(** ** parse_poem_chunk: what it returns *)

(** X1: [parse_poem_chunk] returns [None] exactly for the chunks made of
    white space only, the empty chunk among them. *)
Theorem parse_none_iff_blank (raw : str) :
  parse_poem_chunk raw = Ok None <-> blank raw = true.
Proof.
  rewrite parse_poem_chunk_none. split.
  - intros H. destruct (blank raw) eqn:E; [reflexivity |].
    apply trimmed_lines_not_nil in E. contradiction.
  - apply trimmed_lines_blank.
Qed.

(** A starred class finds a match whenever the rest of the pattern
    accepts a position inside the run. *)
Lemma star_chr_complete {A : Type} multiline p (k : cursor -> option A) :
  forall mid fuel st rest,
    after st = mid ++ rest ->
    Forall (fun c => p c = true) mid ->
    length (after st) <= fuel ->
    is_Some (k (Cursor (rev mid ++ before st) rest (groups st))) ->
    is_Some (star_loop (rmatch multiline (Chr p)) fuel st k).
Proof.
  induction mid as [|c mid IH]; intros fuel [bef aft g] rest Ha Hp Hf Hk;
    cbn [before after groups] in *.
  - subst aft. cbn [rev app] in Hk.
    destruct fuel; cbn [star_loop]; [exact Hk |].
    destruct (rmatch _ _ _ _); [eauto | exact Hk].
  - subst aft. destruct fuel as [|fuel]; [cbn in Hf; lia |].
    cbn [star_loop]. rewrite rmatch_chr. cbn [after app].
    inversion Hp as [|? ? Hc Hp']; subst. rewrite Hc.
    unfold advance. cbn [before after groups length].
    rewrite (proj2 (Nat.ltb_lt _ _)) by lia.
    assert (Hs : is_Some (star_loop (rmatch multiline (Chr p)) fuel
                            (Cursor (c :: bef) (mid ++ rest) g) k)).
    { apply (IH fuel _ rest); cbn [before after groups];
        [reflexivity | exact Hp' | cbn in Hf; lia |].
      cbn [rev] in Hk. rewrite <- app_assoc in Hk. exact Hk. }
    destruct Hs as [x ->]. eauto.
Qed.

(** A line without newline is an attribution exactly when it begins with
    two hyphens and goes on. *)
Lemma trailing_re_matches_iff (s : str) :
  NL ∉ s ->
  is_Some (re_match trailing_re s) <-> take 2 s = py "--" /\ 2 < length s.
Proof.
  intros Hnl. split.
  - intros [m Hm]. split.
    + destruct (decide (take 2 s = py "--")) as [E | E]; [exact E |].
      rewrite (trailing_re_needs_hyphens _ E) in Hm. discriminate.
    + unfold re_match, match_at, trailing_re in Hm.
      rewrite rmatch_seq, rmatch_bol in Hm.
      destruct (at_bol _ _); [| discriminate].
      rewrite rmatch_seq in Hm.
      change (Lit (py "--"))
        with (Seq (Chr (eqc HYPHEN)) (Seq (Chr (eqc HYPHEN)) Eps)) in Hm.
      rewrite rmatch_seq, rmatch_chr in Hm. unfold start_of in Hm.
      cbn [after] in Hm. destruct s as [|c1 s]; [discriminate |].
      destruct (eqc HYPHEN c1); [| discriminate].
      rewrite rmatch_seq, rmatch_chr in Hm. cbn [after advance] in Hm.
      destruct s as [|c2 s]; [discriminate |].
      destruct (eqc HYPHEN c2); [| discriminate].
      apply rmatch_sound in Hm. destruct Hm as (st1 & Hr1 & Hm).
      rewrite rmatch_seq in Hm. apply rmatch_sound in Hm.
      destruct Hm as (st2 & Hr2 & Hm).
      apply capture_to_eol in Hm. destruct Hm as (c & g & suf & Ha & _).
      apply reaches_length in Hr1, Hr2. unfold advance in Hr1.
      cbn [after length] in *. rewrite Ha in Hr2. cbn [length] in Hr2. lia.
  - intros [Hh Hlen].
    destruct s as [|c1 [|c2 [|c rest]]]; try (cbn in Hlen; lia).
    injection Hh as -> ->.
    unfold re_match, match_at, trailing_re.
    rewrite rmatch_seq, rmatch_bol. unfold start_of at 1. cbn [at_bol before].
    rewrite rmatch_seq.
    change (Lit (py "--"))
      with (Seq (Chr (eqc HYPHEN)) (Seq (Chr (eqc HYPHEN)) Eps)).
    rewrite rmatch_seq, rmatch_chr. unfold start_of at 1. cbn [after].
    change (eqc HYPHEN 45%N) with true. cbv iota.
    rewrite rmatch_seq, rmatch_chr. cbn [after advance].
    change (eqc HYPHEN 45%N) with true. cbv iota.
    change (rmatch false Eps ?st ?k) with (k st). cbv beta.
    rewrite rmatch_seq, rmatch_star.
    apply (star_chr_complete false isspace _ [] _ _ (c :: rest));
      [reflexivity | constructor | reflexivity |].
    cbn [rev app before after groups advance].
    rewrite rmatch_seq, rmatch_group, rmatch_plus, rmatch_chr. cbn [after].
    assert (Hc : dot c = true).
    { unfold dot. apply negb_true_iff, N.eqb_neq. intros ->.
      apply Hnl. do 2 right. left. }
    rewrite Hc. rewrite rmatch_star.
    apply (star_chr_complete false dot _ rest _ _ []).
    + cbn [advance after]. rewrite app_nil_r. reflexivity.
    + apply List.Forall_forall. intros x Hx. unfold dot.
      apply negb_true_iff, N.eqb_neq. intros ->.
      apply Hnl. do 3 right. apply list_elem_of_In. exact Hx.
    + reflexivity.
    + rewrite rmatch_eol. cbn [at_eol after]. eauto.
Qed.

Lemma strip_no_newline (l : str) : NL ∉ l -> NL ∉ strip l.
Proof.
  intros Hl H. apply Hl.
  destruct (strip_with_infix isspace l) as (pre & suf & Heq).
  rewrite Heq. apply elem_of_app. right. apply elem_of_app. left. exact H.
Qed.

Lemma trimmed_lines_no_newline (raw : str) :
  Forall (fun l => NL ∉ l) (trimmed_lines raw).
Proof.
  unfold trimmed_lines.
  destruct (pop_leading_blank_split (split_nl raw)) as (pre & Hpre & _).
  destruct (pop_trailing_blank_split (pop_leading_blank (split_nl raw)))
    as (suf & Hsuf & _).
  pose proof (split_nl_no_newline raw) as H.
  rewrite Hpre, Hsuf in H.
  apply Forall_app in H. destruct H as [_ H].
  apply Forall_app in H. destruct H as [H _]. exact H.
Qed.

(** X2: the only exception [parse_poem_chunk] raises is [IndexError], and
    it raises it exactly for the chunks whose one line that is not blank
    begins, once stripped, with two hyphens and goes on: the attribution is
    taken off and [lines[0]] finds no line. *)
Theorem parse_raises_iff (raw : str) e :
  parse_poem_chunk raw = Raise e <->
  e = IndexError
  /\ exists l, trimmed_lines raw = [l]
               /\ take 2 (strip l) = py "--" /\ 2 < length (strip l).
Proof.
  rewrite parse_poem_chunk_raises. split.
  - intros (He & l & Hl & Hm). split; [exact He |]. exists l.
    split; [exact Hl |]. apply trailing_re_matches_iff; [| exact Hm].
    apply strip_no_newline.
    pose proof (trimmed_lines_no_newline raw) as H. rewrite Hl in H.
    inversion H; assumption.
  - intros (He & l & Hl & Hh). split; [exact He |]. exists l.
    split; [exact Hl |]. apply trailing_re_matches_iff; [| exact Hh].
    apply strip_no_newline.
    pose proof (trimmed_lines_no_newline raw) as H. rewrite Hl in H.
    inversion H; assumption.
Qed.

(** A record returned by [parse_poem_chunk], taken apart: the lines left
    once the attribution is taken, which start with the first line of the
    chunk, and what the header gives. *)
Lemma parse_poem_chunk_inv (raw : str) p :
  parse_poem_chunk raw = Ok (Some p) ->
  exists ta l0 rest tail t ha b,
    take_trailing_author (trimmed_lines raw) = (ta, l0 :: rest)
    /\ trimmed_lines raw = (l0 :: rest) ++ tail
    /\ blank l0 = false
    /\ classify_header (strip l0) (l0 :: rest) = (t, ha, b)
    /\ p = Parsed t
             (if negb (truthy ha) && truthy ta then ta else ha)
             (join_nl (pop_leading_blank (drop b (l0 :: rest)))).
Proof.
  unfold parse_poem_chunk. intros H.
  destruct (trimmed_lines raw) as [|l ls] eqn:E; [discriminate |].
  rewrite bool_decide_eq_false_2 in H by discriminate.
  pose proof (trimmed_lines_head _ _ _ E) as Hl.
  assert (Hpre : exists rest tail,
            snd (take_trailing_author (l :: ls)) = l :: rest
            /\ l :: ls = (l :: rest) ++ tail
            \/ snd (take_trailing_author (l :: ls)) = []).
  { unfold take_trailing_author.
    destruct (re_match trailing_re _); cbn [snd].
    - destruct ls as [|l1 ls].
      + exists [], []. right. reflexivity.
      + change (removelast (l :: l1 :: ls))
          with (l :: removelast (l1 :: ls)).
        destruct (pop_trailing_blank_cons l (removelast (l1 :: ls)) Hl)
          as (rest & Hrest).
        destruct (pop_trailing_blank_split (l :: removelast (l1 :: ls)))
          as (suf & Hsuf & _).
        exists rest, (suf ++ [List.last (l1 :: ls) []]). left.
        split; [exact Hrest |].
        rewrite Hrest in Hsuf. rewrite app_assoc, <- Hsuf.
        change (l :: removelast (l1 :: ls))
          with (removelast (l :: l1 :: ls)).
        change (List.last (l1 :: ls) []) with (List.last (l :: l1 :: ls) []).
        apply app_removelast_last. discriminate.
    - exists ls, []. left. split; [reflexivity |].
      rewrite app_nil_r. reflexivity. }
  destruct (take_trailing_author (l :: ls)) as [ta lines] eqn:Et.
  cbn [snd] in Hpre. destruct Hpre as (rest & tail & [[-> Htail] | ->]);
    [| discriminate].
  cbn [bind] in H.
  destruct (classify_header (strip l) (l :: rest)) as [[t ha] b] eqn:Ec.
  injection H as <-.
  exists ta, l, rest, tail, t, ha, b. repeat split; assumption.
Qed.

Lemma header_author_stripped first_line (lines : list str) t a b :
  strip first_line = first_line ->
  classify_header first_line lines = (t, Some a, b) -> strip a = a.
Proof.
  intros Hf. unfold classify_header.
  destruct lines as [|l0 [|l1 more]]; try discriminate.
  destruct (re_match by_re (strip l1)) as [m|].
  - intros [= _ <- _]. apply strip_with_idem.
  - destruct (_is_known_author (strip l1)).
    + intros [= _ <- _]. apply strip_with_idem.
    + destruct (_is_known_author first_line); cbn [andb negb];
        [| discriminate].
      intros [= _ <- _]. exact Hf.
Qed.

Lemma trailing_author_stripped (lines : list str) a rest :
  take_trailing_author lines = (Some a, rest) -> strip a = a.
Proof.
  unfold take_trailing_author.
  destruct (re_match trailing_re _); [| discriminate].
  intros [= <- _]. apply strip_with_idem.
Qed.

(** X3: the author of a returned record is either absent or a string
    that is not empty and has no white space at its ends. *)
Theorem parsed_author_nonempty (raw : str) p a :
  parse_poem_chunk raw = Ok (Some p) ->
  author p = Some a ->
  a <> [] /\ strip a = a.
Proof.
  intros H Ha. apply parse_poem_chunk_inv in H.
  destruct H as (ta & l0 & rest & tail & t & ha & b & Ht & _ & _ & Hc & ->).
  cbn [author] in Ha.
  destruct ha as [h|].
  - cbn [truthy] in Ha. rewrite (header_author_nonempty _ _ _ _ _ Hc) in Ha.
    cbn [negb andb] in Ha. injection Ha as ->. split.
    + apply nonempty_true. eapply header_author_nonempty. exact Hc.
    + eapply header_author_stripped; [| exact Hc]. apply strip_with_idem.
  - cbn [truthy negb andb] in Ha.
    destruct ta as [x|]; cbn [truthy] in Ha; [| discriminate].
    destruct (nonempty x) eqn:Ex; [| discriminate].
    injection Ha as ->. split.
    + apply nonempty_true. exact Ex.
    + eapply trailing_author_stripped. exact Ht.
Qed.

Lemma parsed_author_nonempty_witness :
  py "Jane Doe" <> [] /\ strip (py "Jane Doe") = py "Jane Doe".
Proof.
  apply (parsed_author_nonempty
           (text_of ["Title"; ""; "Body text"; ""; "--  Jane Doe "]%string)
           (Parsed (py "Title") (Some (py "Jane Doe")) (py "Body text"))).
  - reflexivity.
  - reflexivity.
Defined.

(** X4: the title of a returned record has no white space at its ends.
    Unless the first line of the chunk is the name of a known author, the
    title is that first line, stripped, and is not empty. *)
Theorem parsed_title_first_line (raw : str) p l0 ls :
  parse_poem_chunk raw = Ok (Some p) ->
  trimmed_lines raw = l0 :: ls ->
  strip (title p) = title p
  /\ (_is_known_author (strip l0) = false ->
      title p = strip l0 /\ title p <> []).
Proof.
  intros H Hl. apply parse_poem_chunk_inv in H.
  destruct H as (ta & l & rest & tail & t & ha & b & _ & Htl & Hb & Hc & ->).
  rewrite Hl in Htl. injection Htl as -> _. cbn [title].
  unfold classify_header in Hc.
  assert (Hne : strip l <> []).
  { unfold blank in Hb. apply negb_false_iff, nonempty_true in Hb. exact Hb. }
  destruct rest as [|l1 more].
  - injection Hc as <- _ _. split; [apply strip_with_idem | auto].
  - destruct (re_match by_re (strip l1)).
    + injection Hc as <- _ _. split; [apply strip_with_idem | auto].
    + destruct (_is_known_author (strip l1)).
      * injection Hc as <- _ _. split; [apply strip_with_idem | auto].
      * destruct (_is_known_author (strip l)); cbn [andb negb] in Hc;
          injection Hc as <- _ _;
          (split; [apply strip_with_idem | auto; discriminate]).
Qed.

Lemma parsed_title_first_line_witness :
  strip (py "The Tyger") = py "The Tyger"
  /\ (_is_known_author (strip (py "  The Tyger ")) = false ->
      py "The Tyger" = strip (py "  The Tyger ") /\ py "The Tyger" <> []).
Proof.
  apply (parsed_title_first_line
           (text_of [""; "  The Tyger "; "William Blake"; ""; "Tyger"]%string)
           (Parsed (py "The Tyger") None
              (text_of ["William Blake"; ""; "Tyger"]%string))
           (py "  The Tyger ")
           [py "William Blake"; []; py "Tyger"]).
  - reflexivity.
  - reflexivity.
Defined.

Lemma classify_header_start first_line (lines : list str) t ha b :
  classify_header first_line lines = (t, ha, b) -> 1 <= b.
Proof.
  unfold classify_header.
  destruct lines as [|l0 [|l1 more]]; try (intros [= _ _ <-]; lia).
  destruct (re_match by_re (strip l1)).
  - destruct more as [|l2 more]; [intros [= _ _ <-]; lia |].
    destruct (re_match translated_re (strip l2)); intros [= _ _ <-]; lia.
  - destruct (_is_known_author (strip l1)); [intros [= _ _ <-]; lia |].
    destruct (_is_known_author first_line); cbn [andb negb];
      intros [= _ _ <-]; lia.
Qed.

(** The last of the lines left once the attribution is taken is not
    blank. *)
Lemma take_trailing_author_last (raw : str) ta t l :
  take_trailing_author (trimmed_lines raw) = (ta, t ++ [l]) ->
  blank l = false.
Proof.
  unfold take_trailing_author.
  destruct (re_match trailing_re _).
  - intros [= _ H]. eapply pop_trailing_blank_last. exact H.
  - intros [= _ H]. unfold trimmed_lines in H.
    eapply pop_trailing_blank_last. exact H.
Qed.

(** X5: the body of a returned record is a run of consecutive lines of
    the chunk, kept as they are and joined by newlines; at least one line
    comes before it, and when the body is not empty its first and its last
    line are not blank. *)
Theorem parsed_body_block (raw : str) p :
  parse_poem_chunk raw = Ok (Some p) ->
  exists header body_lines tail,
    trimmed_lines raw = header ++ body_lines ++ tail
    /\ header <> []
    /\ body p = join_nl body_lines
    /\ (forall l, head body_lines = Some l -> blank l = false)
    /\ (forall l, last body_lines = Some l -> blank l = false).
Proof.
  intros H. apply parse_poem_chunk_inv in H.
  destruct H as (ta & l0 & rest & tail & t & ha & b & Ht & Htl & _ & Hc & ->).
  cbn [body]. apply classify_header_start in Hc.
  destruct (pop_leading_blank_split (drop b (l0 :: rest)))
    as (pre & Hpre & _).
  set (body_lines := pop_leading_blank (drop b (l0 :: rest))) in *.
  assert (Hlines : l0 :: rest = (take b (l0 :: rest) ++ pre) ++ body_lines).
  { rewrite <- app_assoc, <- Hpre, take_drop. reflexivity. }
  exists (take b (l0 :: rest) ++ pre), body_lines, tail.
  split; [rewrite Htl, Hlines at 1; rewrite <- !app_assoc; reflexivity |].
  split; [destruct b; [lia | discriminate] |].
  split; [reflexivity |]. split.
  - intros l Hl. destruct body_lines as [|x xs] eqn:E; [discriminate |].
    injection Hl as ->. eapply pop_leading_blank_head. exact E.
  - intros l Hl. apply last_Some in Hl. destruct Hl as (xs & Hxs).
    rewrite Hlines, Hxs, app_assoc in Ht.
    eapply take_trailing_author_last. exact Ht.
Qed.

Lemma parsed_body_block_witness :
  exists header body_lines tail,
    trimmed_lines
      (text_of ["Title"; "By Author"; ""; "Line1"; ""; "Line2"; "";
                "--Someone"; ""]%string)
    = header ++ body_lines ++ tail
    /\ header <> []
    /\ text_of ["Line1"; ""; "Line2"]%string = join_nl body_lines
    /\ (forall l, head body_lines = Some l -> blank l = false)
    /\ (forall l, last body_lines = Some l -> blank l = false).
Proof.
  apply (parsed_body_block
           (text_of ["Title"; "By Author"; ""; "Line1"; ""; "Line2"; "";
                     "--Someone"; ""]%string)
           (Parsed (py "Title") (Some (py "Author"))
              (text_of ["Line1"; ""; "Line2"]%string))).
  reflexivity.
Defined.

(** ** The "Title / By Author" format, read back *)

(** A starred class takes the whole run when the rest of the pattern
    accepts the position after it. *)
Lemma star_chr_greedy_some {A : Type} multiline p (k : cursor -> option A) x :
  forall fuel st, length (after st) <= fuel ->
    k (skip p (before st) (after st) (groups st)) = Some x ->
    star_loop (rmatch multiline (Chr p)) fuel st k = Some x.
Proof.
  induction fuel as [|fuel IH]; intros [bef aft g] Hlen Hk;
    cbn [before after groups] in *.
  - destruct aft; [exact Hk | cbn in Hlen; lia].
  - cbn [star_loop]. rewrite rmatch_chr. cbn [after].
    destruct aft as [|c t]; [exact Hk |].
    cbn [skip] in Hk. destruct (p c); [| exact Hk].
    unfold advance. cbn [before after groups length].
    rewrite (proj2 (Nat.ltb_lt _ _)) by lia.
    rewrite (IH (Cursor (c :: bef) t g)); [reflexivity | cbn in *; lia |].
    exact Hk.
Qed.

Lemma skip_all p (s : str) : forall bef g,
  Forall (fun c => p c = true) s -> skip p bef s g = Cursor (rev s ++ bef) [] g.
Proof.
  induction s as [|c s IH]; intros bef g H; [reflexivity |].
  inversion H as [|? ? Hc Hs]; subst. cbn [skip]. rewrite Hc.
  rewrite IH by exact Hs. cbn [rev]. rewrite <- app_assoc. reflexivity.
Qed.

Lemma skip_stop p (s : str) bef g :
  (forall c t, s = c :: t -> p c = false) -> skip p bef s g = Cursor bef s g.
Proof.
  destruct s as [|c t]; [reflexivity |]. intros H. cbn [skip].
  rewrite (H c t); reflexivity.
Qed.

Lemma no_newline_dot (s : str) : NL ∉ s -> Forall (fun c => dot c = true) s.
Proof.
  intros H. apply List.Forall_forall. intros c Hc. unfold dot.
  apply negb_true_iff, N.eqb_neq. intros ->. apply H.
  apply list_elem_of_In. exact Hc.
Qed.

(** [By <name>] and [by <name>] give the name. *)
Lemma by_re_matches c (a : str) :
  one_of (py "Bb") c = true -> a <> [] -> strip a = a -> NL ∉ a ->
  group 1 <$> re_match by_re (c :: py "y " ++ a) = Some a.
Proof.
  intros Hc Hne Hstrip Hnl.
  destruct a as [|a0 a']; [contradiction |].
  assert (Ha0 : isspace a0 = false).
  { eapply strip_with_head. exact Hstrip. }
  unfold re_match, match_at, by_re.
  rewrite rmatch_seq, rmatch_bol. unfold start_of at 1. cbn [at_bol before].
  rewrite rmatch_seq, rmatch_chr. unfold start_of at 1. cbn [after].
  change (py "y ") with [121%N; 32%N]. cbn [app]. rewrite Hc.
  rewrite rmatch_seq, rmatch_chr. cbn [after advance].
  change (eqc 121%N 121%N) with true. cbv iota.
  rewrite rmatch_seq, rmatch_plus. unfold ws at 1. rewrite rmatch_chr.
  cbn [after advance].
  change (isspace 32%N) with true. cbv iota.
  rewrite rmatch_star. unfold ws.
  assert (Hd0 : dot a0 = true).
  { unfold dot. apply negb_true_iff, N.eqb_neq. intros ->.
    apply Hnl. left. }
  match goal with
  | |- _ <$> ?e = _ =>
      assert (Hm : exists m, e = Some m /\ group 1 m = a0 :: a')
  end.
  { eexists. split.
    - apply star_chr_greedy_some; [reflexivity |].
      cbn [before after groups].
      rewrite skip_stop by (intros ? ? [= <- _]; exact Ha0).
      rewrite rmatch_seq, rmatch_group, rmatch_plus, rmatch_chr.
      unfold advance, start_of. cbn [before after groups].
      rewrite Hd0. rewrite rmatch_star.
      apply star_chr_greedy_some; [reflexivity |].
      cbn [before after groups].
      rewrite skip_all.
      2:{ apply no_newline_dot. intros H. apply Hnl. right. exact H. }
      rewrite rmatch_eol. cbn [at_eol after before groups]. reflexivity.
    - unfold group, consumed. cbn. rewrite firstn_all.
      destruct (decide (1 = 1)); [reflexivity | contradiction]. }
  destruct Hm as (m & -> & Hg). cbn. rewrite Hg. reflexivity.
Qed.

Lemma pop_trailing_blank_fixed (xs : list str) l :
  blank l = false -> pop_trailing_blank (xs ++ [l]) = xs ++ [l].
Proof.
  intros Hl. unfold pop_trailing_blank.
  rewrite rev_app_distr. cbn [rev app pop_leading_blank]. rewrite Hl.
  change (l :: rev xs) with (rev [l] ++ rev xs).
  rewrite <- rev_app_distr, rev_involutive. reflexivity.
Qed.

(** A string that starts and ends with a character that is not white
    space is its own [strip]. *)
Lemma strip_fixed (s : str) :
  (forall c t, s = c :: t -> isspace c = false) ->
  (forall t c, s = t ++ [c] -> isspace c = false) ->
  strip s = s.
Proof.
  intros Hh Hl. unfold strip, strip_with.
  rewrite lstrip_with_fixed by exact Hh. apply rstrip_with_fixed, Hl.
Qed.

Lemma one_of_Bb c : one_of (py "Bb") c = true -> c = 66%N \/ c = 98%N.
Proof.
  unfold one_of. change (py "Bb") with [66%N; 98%N]. cbn [existsb].
  rewrite !orb_true_iff, !N.eqb_eq. intros [H | [H | H]]; auto; discriminate.
Qed.

Lemma last_line_of (xs : list str) (l d : str) :
  List.last (xs ++ [l]) d = l.
Proof. apply last_last. Qed.

(** X6: a chunk written as a title line, a line "By <author>" or
    "by <author>", a blank line and the lines of the poem is read back
    into these parts, when the lines hold no newline, the title is not
    blank, the author is stripped and not empty, and the poem starts and
    ends with a line that is not blank, the last one no attribution. *)
Theorem by_format_round_trip (t a : str) c (poem_lines : list str) first
    more last_line :
  NL ∉ t -> blank t = false ->
  one_of (py "Bb") c = true ->
  NL ∉ a -> strip a = a -> a <> [] ->
  Forall (fun l => NL ∉ l) poem_lines ->
  poem_lines = first :: more -> blank first = false ->
  last poem_lines = Some last_line -> blank last_line = false ->
  take 2 (strip last_line) <> py "--" ->
  parse_poem_chunk (join_nl (t :: (c :: py "y " ++ a) :: [] :: poem_lines))
  = Ok (Some (Parsed (strip t) (Some a) (join_nl poem_lines))).
Proof.
  intros Ht Hbt Hc Ha Hsa Hna Hnl Hfirst Hbf Hlast Hbl Hattr.
  apply last_Some in Hlast. destruct Hlast as (xs & Hxs).
  assert (Hbyline : NL ∉ c :: py "y " ++ a).
  { intros H. apply elem_of_cons in H. destruct H as [<- | H];
      [destruct (one_of_Bb _ Hc); discriminate |].
    apply elem_of_app in H. destruct H as [H | H]; [| contradiction].
    vm_compute in H. repeat (apply elem_of_cons in H; destruct H as [H | H];
      [discriminate |]). inversion H. }
  assert (Hall : t :: (c :: py "y " ++ a) :: [] :: poem_lines
                 = (t :: (c :: py "y " ++ a) :: [] :: xs) ++ [last_line]).
  { rewrite Hxs. reflexivity. }
  assert (Htrim : trimmed_lines
                    (join_nl (t :: (c :: py "y " ++ a) :: [] :: poem_lines))
                  = t :: (c :: py "y " ++ a) :: [] :: poem_lines).
  { unfold trimmed_lines. rewrite split_join_nl.
    2: discriminate.
    2:{ repeat constructor; try assumption. intros H. inversion H. }
    cbn [pop_leading_blank]. rewrite Hbt.
    rewrite Hall. apply pop_trailing_blank_fixed. exact Hbl. }
  unfold parse_poem_chunk. rewrite Htrim.
  rewrite bool_decide_eq_false_2 by discriminate.
  unfold take_trailing_author.
  rewrite Hall, last_line_of, (trailing_re_needs_hyphens _ Hattr), <- Hall.
  cbn [bind classify_header].
  assert (Hsecond : strip (c :: py "y " ++ a) = c :: py "y " ++ a).
  { apply strip_fixed.
    - intros ? ? [= <- _].
      destruct (one_of_Bb c Hc) as [-> | ->]; reflexivity.
    - intros u z Hz.
      destruct (exists_last Hna) as (a1 & z' & Ha1).
      rewrite Ha1 in Hz.
      change (c :: py "y " ++ a1 ++ [z'])
        with ((c :: py "y ") ++ a1 ++ [z']) in Hz.
      rewrite app_assoc in Hz. apply app_inj_tail in Hz.
      destruct Hz as [_ <-]. rewrite Ha1 in Hsa.
      eapply strip_with_last. exact Hsa. }
  rewrite Hsecond.
  pose proof (by_re_matches c a Hc Hna Hsa Ha) as Hby.
  destruct (re_match by_re (c :: py "y " ++ a)) as [m|]; [| discriminate].
  injection Hby as Hg. rewrite Hg, Hsa.
  change (re_match translated_re (strip [])) with (@None rmatch_result).
  cbn [truthy]. rewrite (proj2 (nonempty_true a) Hna). cbn [negb andb].
  cbn [drop pop_leading_blank].
  change (blank []) with true. cbv iota.
  rewrite Hfirst. cbn [pop_leading_blank]. rewrite Hbf. reflexivity.
Qed.

Lemma by_format_round_trip_witness :
  parse_poem_chunk
    (join_nl (py " Ozymandias" :: (98%N :: py "y " ++ py "P. B. Shelley")
              :: [] :: [py "I met a traveller"; []; py "  Nothing beside"]))
  = Ok (Some (Parsed (strip (py " Ozymandias")) (Some (py "P. B. Shelley"))
                (join_nl [py "I met a traveller"; [];
                          py "  Nothing beside"]))).
Proof.
  apply (by_format_round_trip _ _ _ _ (py "I met a traveller")
           [[]; py "  Nothing beside"] (py "  Nothing beside")).
  - vm_compute. intros H. repeat (apply elem_of_cons in H;
      destruct H as [H | H]; [discriminate |]). inversion H.
  - reflexivity.
  - reflexivity.
  - vm_compute. intros H. repeat (apply elem_of_cons in H;
      destruct H as [H | H]; [discriminate |]). inversion H.
  - reflexivity.
  - discriminate.
  - vm_compute. repeat constructor; intros H;
      repeat (apply elem_of_cons in H; destruct H as [H | H];
              [discriminate |]); inversion H.
  - reflexivity.
  - reflexivity.
  - reflexivity.
  - reflexivity.
  - vm_compute. discriminate.
Defined.

(** ** The trailing attribution, when other lines come before it *)

(** X7: when the last line of a chunk is an attribution and other lines
    come before it, the record is the one of the lines before it: the
    attribution line is no part of the body, and the attributed name is
    the author exactly when the header gives none, the author of the
    header being kept otherwise. *)
Theorem trailing_attribution_taken (raw : str) lines (l name : str) :
  trimmed_lines raw = lines ++ [l] ->
  lines <> [] ->
  group 1 <$> re_match trailing_re (strip l) = Some name ->
  exists l0 rest title header_author body_start,
    pop_trailing_blank lines = l0 :: rest
    /\ classify_header (strip l0) (l0 :: rest)
       = (title, header_author, body_start)
    /\ parse_poem_chunk raw
       = Ok (Some (Parsed title
                     (Some (default (strip name) header_author))
                     (join_nl (pop_leading_blank
                                 (drop body_start (l0 :: rest)))))).
Proof. apply trailing_attribution. Qed.

Lemma trailing_attribution_taken_witness :
  exists l0 rest title header_author body_start,
    pop_trailing_blank [py "Title"; []; py "Body text"; []] = l0 :: rest
    /\ classify_header (strip l0) (l0 :: rest)
       = (title, header_author, body_start)
    /\ parse_poem_chunk
         (text_of ["Title"; ""; "Body text"; ""; "--Jane Doe"]%string)
       = Ok (Some (Parsed title
                     (Some (default (strip (py "Jane Doe")) header_author))
                     (join_nl (pop_leading_blank
                                 (drop body_start (l0 :: rest)))))).
Proof.
  apply (trailing_attribution_taken _ _ (py "--Jane Doe")).
  - reflexivity.
  - discriminate.
  - reflexivity.
Defined.

(** ** _split_on_trailing_author and split_poems: what the chunks are *)

Lemma filter_all_space (s : str) :
  Forall (fun c => isspace c = true) s ->
  filter (fun c => isspace c = false) s = [].
Proof.
  induction 1 as [|c s Hc _ IH]; [reflexivity |].
  rewrite filter_cons_False by (rewrite Hc; discriminate). exact IH.
Qed.

(** [strip] takes white space away and nothing else. *)
Lemma filter_strip (s : str) :
  filter (fun c => isspace c = false) (strip s)
  = filter (fun c => isspace c = false) s.
Proof.
  destruct (lstrip_with_split isspace s) as (pre & Hpre & Hp).
  destruct (rstrip_with_split isspace (lstrip_with isspace s))
    as (suf & Hsuf & Hs).
  assert (H : s = pre ++ strip s ++ suf).
  { unfold strip, strip_with. rewrite <- Hsuf. exact Hpre. }
  replace (filter (fun c => isspace c = false) s)
    with (filter (fun c => isspace c = false) (pre ++ strip s ++ suf))
    by (rewrite <- H; reflexivity).
  rewrite !filter_app, (filter_all_space pre Hp), (filter_all_space suf Hs).
  rewrite app_nil_r. reflexivity.
Qed.

Lemma split_on_trailing_author_rec_text fuel : forall chunk : str,
  filter (fun c => isspace c = false)
    (concat (split_on_trailing_author_rec fuel chunk))
  = filter (fun c => isspace c = false) chunk.
Proof.
  induction fuel as [|fuel IH]; intros chunk;
    cbn [split_on_trailing_author_rec];
    destruct (re_search _ _ _) as [m|];
    try (cbn [concat]; rewrite app_nil_r; reflexivity);
    destruct (nonempty _ && nonempty _);
    try (cbn [concat]; rewrite app_nil_r; reflexivity).
  cbn [concat]. rewrite filter_app, IH, !filter_strip, <- filter_app.
  rewrite take_drop. reflexivity.
Qed.

Lemma split_on_trailing_author_rec_not_nil fuel (chunk : str) :
  split_on_trailing_author_rec fuel chunk <> [].
Proof.
  destruct fuel; cbn [split_on_trailing_author_rec];
    destruct (re_search _ _ _); try discriminate;
    destruct (nonempty _ && nonempty _); discriminate.
Qed.

Lemma split_on_trailing_author_rec_stripped fuel : forall chunk : str,
  split_on_trailing_author_rec fuel chunk = [chunk]
  \/ 1 < length (split_on_trailing_author_rec fuel chunk)
     /\ Forall (fun c => blank c = false /\ strip c = c)
          (split_on_trailing_author_rec fuel chunk).
Proof.
  induction fuel as [|fuel IH]; intros chunk;
    cbn [split_on_trailing_author_rec];
    destruct (re_search _ _ _) as [m|]; auto;
    destruct (nonempty (strip (take _ _))) eqn:E1; cbn [andb]; auto;
    destruct (nonempty (strip (drop _ _))) eqn:E2; auto.
  right.
  assert (Hrest : Forall (fun c => blank c = false /\ strip c = c)
            (split_on_trailing_author_rec fuel
               (strip (drop (m_end_pos m) chunk)))).
  { destruct (IH (strip (drop (m_end_pos m) chunk))) as [-> | [_ H]];
      [| exact H].
    repeat constructor; [apply strip_not_blank, E2 | apply strip_with_idem]. }
  split.
  - cbn [length].
    pose proof (split_on_trailing_author_rec_not_nil fuel
                  (strip (drop (m_end_pos m) chunk))) as Hne.
    destruct (split_on_trailing_author_rec fuel _);
      [contradiction | cbn; lia].
  - constructor; [| exact Hrest].
    split; [apply strip_not_blank, E1 | apply strip_with_idem].
Qed.

(** X8: [_split_on_trailing_author] loses nothing but white space: the
    characters of the pieces that are not white space are those of the
    chunk, in order.  It returns the chunk alone, or several pieces each
    of which is stripped and not blank. *)
Theorem split_on_trailing_author_keeps_text (chunk : str) :
  filter (fun c => isspace c = false)
    (concat (_split_on_trailing_author chunk))
  = filter (fun c => isspace c = false) chunk
  /\ (_split_on_trailing_author chunk = [chunk]
      \/ 1 < length (_split_on_trailing_author chunk)
         /\ Forall (fun c => blank c = false /\ strip c = c)
              (_split_on_trailing_author chunk)).
Proof.
  split.
  - apply split_on_trailing_author_rec_text.
  - apply split_on_trailing_author_rec_stripped.
Qed.

(** The pattern of [_split_on_trailing_author] matches at the start of a
    line only, and two hyphens must stand there. *)
Lemma attribution_break_needs_hyphens bef aft :
  at_bol true (Cursor bef aft []) = false \/ take 2 aft <> py "--" ->
  match_at true attribution_break_re (Cursor bef aft []) = None.
Proof.
  intros H. unfold match_at, attribution_break_re.
  rewrite rmatch_seq, rmatch_bol.
  destruct (at_bol true _) eqn:Eb; [| reflexivity].
  destruct H as [H | H]; [discriminate |].
  rewrite rmatch_seq, rmatch_group, rmatch_seq.
  change (Lit (py "--"))
    with (Seq (Chr (eqc HYPHEN)) (Seq (Chr (eqc HYPHEN)) Eps)).
  rewrite rmatch_seq, rmatch_chr. cbn [after].
  destruct aft as [|c1 aft]; [reflexivity |].
  unfold eqc at 1. destruct (N.eqb_spec c1 HYPHEN) as [-> |]; [| reflexivity].
  rewrite rmatch_seq, rmatch_chr. cbn [after advance].
  destruct aft as [|c2 aft]; [reflexivity |].
  unfold eqc at 1. destruct (N.eqb_spec c2 HYPHEN) as [-> |]; [| reflexivity].
  exfalso. apply H. reflexivity.
Qed.

Lemma split_nl_app_nl (p s : str) :
  split_nl (p ++ NL :: s) = split_nl p ++ split_nl s.
Proof.
  induction p as [|c p IH]; [reflexivity |].
  cbn [app split_nl]. destruct (c =? NL)%N.
  - rewrite IH. reflexivity.
  - rewrite IH. pose proof (split_nl_not_nil p) as Hne.
    destruct (split_nl p); [contradiction | reflexivity].
Qed.

Lemma split_nl_head_take (s : str) :
  take 2 s = py "--" -> exists l ls, split_nl s = l :: ls /\ take 2 l = py "--".
Proof.
  destruct s as [|c1 [|c2 s]]; try discriminate.
  intros [= -> ->]. cbn [split_nl].
  change (45 =? NL)%N with false. cbv iota.
  pose proof (split_nl_not_nil s) as Hne.
  destruct (split_nl s) as [|l ls]; [contradiction |].
  exists (45%N :: 45%N :: l), ls. split; reflexivity.
Qed.

(** Where no line begins with two hyphens the pattern matches nowhere. *)
Lemma scan_attribution_break_none : forall aft bef,
  (forall b' a', aft = b' ++ a' ->
     at_bol true (Cursor (rev b' ++ bef) a' []) = true ->
     take 2 a' <> py "--") ->
  scan true attribution_break_re bef aft = None.
Proof.
  induction aft as [|c t IH]; intros bef H; cbn [scan].
  - rewrite attribution_break_needs_hyphens; [reflexivity |].
    right. discriminate.
  - rewrite attribution_break_needs_hyphens.
    + apply IH.
      intros b' a' Ha Hb. apply (H (c :: b') a').
      * cbn [app]. rewrite Ha. reflexivity.
      * cbn [rev]. rewrite <- app_assoc. exact Hb.
    + destruct (at_bol true (Cursor bef (c :: t) [])) eqn:E;
        [| left; reflexivity].
      right. apply (H [] (c :: t)); [reflexivity | exact E].
Qed.

(** X9: a chunk none of whose lines begins with two hyphens is not split
    by [_split_on_trailing_author]. *)
Theorem no_hyphen_line_no_split (chunk : str) :
  Forall (fun l => take 2 l <> py "--") (split_nl chunk) ->
  _split_on_trailing_author chunk = [chunk].
Proof.
  intros H. unfold _split_on_trailing_author.
  assert (Hs : re_search true attribution_break_re chunk = None).
  { unfold re_search. apply scan_attribution_break_none.
    intros b' a' Ha Hb Ht. rewrite app_nil_r in Hb.
    destruct (split_nl_head_take a' Ht) as (l & ls & Hl & Hl2).
    assert (Hin : l ∈ split_nl chunk).
    { unfold at_bol in Hb. cbn [before] in Hb.
      destruct (rev b') as [|x xs] eqn:Er.
      - apply (f_equal (@rev N)) in Er. rewrite rev_involutive in Er.
        cbn in Er. subst b'. cbn [app] in Ha. subst a'. rewrite Hl. left.
      - cbn [andb] in Hb. apply N.eqb_eq in Hb. subst x.
        apply (f_equal (@rev N)) in Er. rewrite rev_involutive in Er.
        cbn [rev] in Er. subst b'. rewrite Ha, <- app_assoc. cbn [app].
        rewrite split_nl_app_nl, Hl. apply elem_of_app. right. left. }
    rewrite List.Forall_forall in H.
    apply (H l); [apply list_elem_of_In, Hin | exact Hl2]. }
  destruct (length chunk); cbn [split_on_trailing_author_rec];
    rewrite Hs; reflexivity.
Qed.

Lemma no_hyphen_line_no_split_witness :
  _split_on_trailing_author
    (text_of ["Title"; "well - known --"; ""; ""; "- a dash"]%string)
  = [text_of ["Title"; "well - known --"; ""; ""; "- a dash"]%string].
Proof.
  apply no_hyphen_line_no_split.
  vm_compute. repeat constructor; discriminate.
Defined.

(** The pieces of [re.split] are parts of the subject. *)
Lemma pieces_infix multiline r fuel : forall bef aft prev d,
  prev = d ++ aft ->
  Forall (fun pc => exists x y, prev = x ++ pc ++ y)
    (pieces prev (finditer_from multiline r fuel bef aft)).
Proof.
  induction fuel as [|fuel IH]; intros bef aft prev d Hprev.
  - cbn [finditer_from pieces]. constructor; [| constructor].
    exists [], []. rewrite app_nil_r. reflexivity.
  - cbn [finditer_from].
    assert (Hstep : forall prev' d', prev' = d' ++ aft ->
              Forall (fun pc => exists x y, prev' = x ++ pc ++ y)
                (pieces prev'
                   match aft with
                   | [] => []
                   | c :: t => finditer_from multiline r fuel (c :: bef) t
                   end)).
    { intros prev' d' Hp. destruct aft as [|c t].
      - cbn [pieces]. constructor; [| constructor].
        exists [], []. rewrite app_nil_r. reflexivity.
      - apply (IH _ _ _ (d' ++ [c])). rewrite <- app_assoc. exact Hp. }
    destruct (match_at multiline r (Cursor bef aft [])) as [m|] eqn:Em;
      [| apply (Hstep prev d Hprev)].
    apply match_at_sound in Em. destruct Em as [Hs (mid & Hmid & _)].
    cbn [after] in Hmid.
    assert (Hupto : upto prev m = d).
    { unfold upto. rewrite Hs. cbn [after]. rewrite Hprev, length_app.
      rewrite Nat.add_sub. apply take_app_length. }
    destruct (Nat.ltb_spec (length (after (m_end m))) (length aft)).
    + cbn [pieces]. rewrite Hupto. constructor.
      * exists [], aft. rewrite Hprev. reflexivity.
      * specialize (IH (before (m_end m)) (after (m_end m))
                      (after (m_end m)) [] eq_refl).
        eapply Forall_impl; [exact IH |]. cbv beta.
        intros pc (x & y & Hxy). exists (d ++ mid ++ x), y.
        rewrite Hprev, Hmid, Hxy, <- !app_assoc. reflexivity.
    + cbn [pieces]. rewrite Hupto. constructor.
      * exists [], aft. rewrite Hprev. reflexivity.
      * assert (Hmid0 : after (m_end m) = aft).
        { rewrite Hmid in H. rewrite length_app in H.
          destruct mid; [symmetry; exact Hmid | cbn in H; lia]. }
        rewrite Hmid0.
        specialize (Hstep aft [] eq_refl).
        eapply Forall_impl; [exact Hstep |]. cbv beta.
        intros pc (x & y & Hxy). exists (d ++ x), y.
        rewrite Hprev, Hxy at 1. rewrite <- !app_assoc. reflexivity.
Qed.

Lemma strip_infix_of (s : str) : exists x y, s = x ++ strip s ++ y.
Proof. apply strip_with_infix. Qed.

Lemma split_on_trailing_author_rec_infix fuel : forall chunk : str,
  Forall (fun c => exists x y, chunk = x ++ c ++ y)
    (split_on_trailing_author_rec fuel chunk).
Proof.
  assert (Hself : forall chunk : str,
            Forall (fun c => exists x y, chunk = x ++ c ++ y) [chunk]).
  { intros chunk. repeat constructor. exists [], [].
    rewrite app_nil_r. reflexivity. }
  induction fuel as [|fuel IH]; intros chunk;
    cbn [split_on_trailing_author_rec];
    destruct (re_search _ _ _) as [m|]; auto;
    destruct (nonempty _ && nonempty _); auto.
  pose proof (take_drop (m_end_pos m) chunk) as Htd.
  destruct (strip_infix_of (take (m_end_pos m) chunk)) as (x1 & y1 & H1).
  destruct (strip_infix_of (drop (m_end_pos m) chunk)) as (x2 & y2 & H2).
  constructor.
  - exists x1, (y1 ++ drop (m_end_pos m) chunk).
    rewrite <- Htd at 1. rewrite H1 at 1. rewrite <- !app_assoc. reflexivity.
  - eapply Forall_impl; [apply IH |]. cbv beta.
    intros c (x & y & Hxy).
    exists (take (m_end_pos m) chunk ++ x2 ++ x), (y ++ y2).
    rewrite <- Htd at 1. rewrite H2 at 1. rewrite Hxy at 1.
    rewrite <- !app_assoc. reflexivity.
Qed.

(** X10: every chunk [split_poems] returns holds a character that is not
    white space, has no white space at its ends, and stands in the
    document as it is, as one run of characters. *)
Theorem split_poems_chunks (text : str) :
  Forall (fun c => blank c = false /\ strip c = c
                   /\ exists pre suf, text = pre ++ c ++ suf)
    (split_poems text).
Proof.
  unfold split_poems, primary_chunks.
  apply Forall_concat, Forall_map. rewrite Forall_map.
  pose proof (pieces_infix false delimiter_re (S (length text)) [] text
                text [] eq_refl) as Hpieces.
  fold (finditer delimiter_re text) in Hpieces.
  fold (re_split delimiter_re text) in Hpieces.
  apply List.Forall_forall. intros pc Hin.
  apply list_elem_of_In, list_elem_of_filter in Hin.
  destruct Hin as [Hne Hin].
  rewrite List.Forall_forall in Hpieces.
  destruct (Hpieces pc (proj1 (list_elem_of_In _ _) Hin))
    as (x & y & Hxy).
  destruct (strip_infix_of pc) as (x' & y' & Hpc).
  pose proof (split_on_trailing_author_rec_infix (length (strip pc))
                (strip pc)) as Hinf.
  pose proof (split_on_trailing_author_rec_not_blank (length (strip pc))
                (strip pc) (strip_not_blank _ Hne)) as Hnb.
  pose proof (split_on_trailing_author_rec_stripped (length (strip pc))
                (strip pc)) as Hst.
  unfold _split_on_trailing_author.
  apply List.Forall_forall. intros c Hc.
  rewrite List.Forall_forall in Hinf, Hnb.
  split; [apply Hnb, Hc |]. split.
  - destruct Hst as [Hst | [_ Hst]].
    + rewrite Hst in Hc. destruct Hc as [<- | []]. apply strip_with_idem.
    + rewrite List.Forall_forall in Hst. apply Hst, Hc.
  - destruct (Hinf c Hc) as (u & v & Huv).
    exists (x ++ x' ++ u), (v ++ y' ++ y).
    rewrite Hxy, Hpc at 1. rewrite Huv at 1. rewrite <- !app_assoc.
    reflexivity.
Qed.

(** ** fetch_and_parse: the document as a whole *)

(** X11: a document of white space only, the empty document among them,
    has no chunk and gives the empty list of poems. *)
Theorem blank_document_no_poem (normalize_NFKD : str -> str) (text : str)
    (overrides : gmap str str) :
  blank text = true ->
  split_poems text = []
  /\ fetch_and_parse normalize_NFKD text overrides = Ok [].
Proof.
  intros Hb.
  assert (Hs : split_poems text = []).
  { pose proof (split_poems_chunks text) as H.
    destruct (split_poems text) as [|c cs]; [reflexivity |].
    apply List.Forall_inv in H. destruct H as (Hc & _ & pre & suf & Ht).
    apply blank_false_iff in Hc. destruct Hc as (ch & Hin & Hws).
    apply blank_true_iff in Hb. rewrite List.Forall_forall in Hb.
    rewrite (Hb ch) in Hws; [discriminate |].
    apply list_elem_of_In. rewrite Ht. apply elem_of_app. right.
    apply elem_of_app. left. exact Hin. }
  split; [exact Hs |]. unfold fetch_and_parse. rewrite Hs. reflexivity.
Qed.

Lemma blank_document_no_poem_witness :
  split_poems (text_of [""; "  "; ""]%string) = []
  /\ fetch_and_parse (fun s => s) (text_of [""; "  "; ""]%string) ∅ = Ok [].
Proof.
  apply blank_document_no_poem. reflexivity.
Defined.

Lemma parse_chunks_raises (normalize_NFKD : str -> str)
    (overrides : gmap str str) chunks : forall i e,
  parse_chunks normalize_NFKD overrides i chunks = Raise e <->
  Exists (fun c => parse_poem_chunk c = Raise e) chunks.
Proof.
  induction chunks as [|chunk chunks IH]; intros i e; cbn [parse_chunks].
  - split; [discriminate | intros H; inversion H].
  - rewrite Exists_cons.
    destruct (parse_poem_chunk chunk) as [[p|]|e'] eqn:Ep; cbn [bind].
    + destruct (parse_chunks normalize_NFKD overrides (S i) chunks)
        as [poems|e'] eqn:Er; cbn [bind].
      * split; [discriminate |]. intros [H | H]; [discriminate |].
        apply (IH (S i)) in H. rewrite Er in H. discriminate.
      * split.
        -- intros [= ->]. right. apply (IH (S i)). exact Er.
        -- intros [H | H]; [discriminate |].
           apply (IH (S i)) in H. rewrite Er in H. exact H.
    + rewrite IH. split; [auto | intros [H | H]; [discriminate | exact H]].
    + split.
      * intros [= ->]. left. reflexivity.
      * intros [H | H]; [injection H as ->; reflexivity |].
        assert (He : e = IndexError /\ e' = IndexError).
        { apply Exists_exists in H. destruct H as (c & _ & Hc).
          apply parse_poem_chunk_raises in Hc, Ep. tauto. }
        destruct He as [-> ->]. reflexivity.
Qed.

(** X12: with overrides that are a dictionary of names by slug,
    [fetch_and_parse] raises exactly when one of the chunks of the
    document makes [parse_poem_chunk] raise, that is, is an attribution
    line and nothing else; the error is [IndexError], and no poem of the
    document is returned: looking a slug up in such a dictionary does not
    raise. *)
Theorem fetch_and_parse_raises_iff (normalize_NFKD : str -> str)
    (text : str) (overrides : gmap str str) e :
  fetch_and_parse normalize_NFKD text overrides = Raise e <->
  e = IndexError
  /\ Exists (fun c => parse_poem_chunk c = Raise IndexError)
       (split_poems text).
Proof.
  unfold fetch_and_parse. rewrite parse_chunks_raises. split.
  - intros H. assert (He : e = IndexError).
    { apply Exists_exists in H. destruct H as (c & _ & Hc).
      apply parse_poem_chunk_raises in Hc. tauto. }
    subst e. split; [reflexivity | exact H].
  - intros [-> H]. exact H.
Qed.

Lemma parse_chunks_records (normalize_NFKD : str -> str)
    (overrides : gmap str str) chunks : forall i poems,
  parse_chunks normalize_NFKD overrides i chunks = Ok poems ->
  Forall (fun c => blank c = false) chunks ->
  Forall2 (fun chunk p =>
    exists q, parse_poem_chunk chunk = Ok (Some q)
      /\ poem_title p = title q
      /\ poem_body p = body q
      /\ poem_slug p = slugify normalize_NFKD (title q)
      /\ poem_author p = match overrides !! poem_slug p with
                         | Some a => Some a
                         | None => author q
                         end) chunks poems.
Proof.
  induction chunks as [|chunk chunks IH]; intros i poems H Hb.
  - injection H as <-. constructor.
  - cbn [parse_chunks] in H. inversion Hb as [|? ? Hc Hcs]; subst.
    destruct (parse_poem_chunk chunk) as [[q|]|e] eqn:Ep; cbn [bind] in H.
    + destruct (parse_chunks normalize_NFKD overrides (S i) chunks)
        as [rest|e] eqn:Er; [| discriminate].
      cbn [bind] in H. injection H as <-. constructor.
      * exists q. split; [exact Ep |].
        cbn [poem_title poem_body poem_slug poem_author].
        destruct (overrides !! slugify normalize_NFKD (title q));
          repeat split.
      * apply (IH (S i)); assumption.
    + apply parse_poem_chunk_none in Ep.
      apply trimmed_lines_not_nil in Hc. contradiction.
    + discriminate.
Qed.

(** X13: the records [fetch_and_parse] returns are, in order, those of
    the chunks of [split_poems]: title and body are those
    [parse_poem_chunk] finds in the chunk, the slug is [slugify] of that
    title, and the author is the override of the slug, or else the author
    found in the chunk. *)
Theorem fetch_and_parse_records (normalize_NFKD : str -> str) (text : str)
    (overrides : gmap str str) poems :
  fetch_and_parse normalize_NFKD text overrides = Ok poems ->
  Forall2 (fun chunk p =>
    exists q, parse_poem_chunk chunk = Ok (Some q)
      /\ poem_title p = title q
      /\ poem_body p = body q
      /\ poem_slug p = slugify normalize_NFKD (title q)
      /\ poem_author p = match overrides !! poem_slug p with
                         | Some a => Some a
                         | None => author q
                         end) (split_poems text) poems.
Proof.
  intros H. eapply parse_chunks_records; [exact H |].
  apply split_poems_not_blank.
Qed.

Lemma fetch_and_parse_records_witness :
  Forall2 (fun chunk p =>
    exists q, parse_poem_chunk chunk = Ok (Some q)
      /\ poem_title p = title q
      /\ poem_body p = body q
      /\ poem_slug p = slugify (fun s => s) (title q)
      /\ poem_author p
         = match ({[ py "a" := py "Someone" ]} : gmap str str)
                 !! poem_slug p with
           | Some a => Some a
           | None => author q
           end)
    (split_poems (text_of ["A"; "____"; "B b"; "By Me"]%string))
    [Poem 1 (py "A") (Some (py "Someone")) (py "a") [];
     Poem 2 (py "B b") (Some (py "Me")) (py "b-b") []].
Proof.
  apply (fetch_and_parse_records (fun s => s)). vm_compute. reflexivity.
Defined.

(** ** _is_known_author *)

(** What a starred class has read is a run of the class. *)
Lemma star_chr_sound {A : Type} multiline p (k : cursor -> option A) x :
  forall fuel st,
    star_loop (rmatch multiline (Chr p)) fuel st k = Some x ->
    exists mid rest,
      after st = mid ++ rest
      /\ Forall (fun c => p c = true) mid
      /\ k (Cursor (rev mid ++ before st) rest (groups st)) = Some x.
Proof.
  induction fuel as [|fuel IH]; intros [bef aft g] H;
    cbn [before after groups].
  - exists [], aft. repeat split; [constructor | exact H].
  - cbn [star_loop] in H. rewrite rmatch_chr in H. cbn [after] in H.
    destruct aft as [|c t].
    + exists [], []. repeat split; [constructor | exact H].
    + destruct (p c) eqn:Ec.
      * unfold advance in H. cbn [before after groups length] in H.
        rewrite (proj2 (Nat.ltb_lt (length t) (S (length t)))) in H by lia.
        destruct (star_loop _ fuel (Cursor (c :: bef) t g) k) as [y|] eqn:E.
        -- injection H as ->. apply IH in E.
           destruct E as (mid & rest & Ha & Hp & Hk).
           cbn [before after groups] in *.
           exists (c :: mid), rest. split; [cbn; congruence |].
           split; [constructor; assumption |].
           cbn [rev]. rewrite <- app_assoc. exact Hk.
        -- exists [], (c :: t). repeat split; [constructor | exact H].
      * exists [], (c :: t). repeat split; [constructor | exact H].
Qed.

(** The parenthesis pattern matches at no position from which a character
    other than white space and the opening parenthesis comes first. *)
Lemma parenthetical_no_match bef (s R : str) z t :
  40%N ∉ s -> s = t ++ [z] -> isspace z = false ->
  match_at false parenthetical_re (Cursor bef (s ++ R) []) = None.
Proof.
  intros Hparen Hs Hz.
  destruct (match_at _ _ _) as [m|] eqn:E; [exfalso | reflexivity].
  unfold match_at, parenthetical_re in E.
  rewrite rmatch_seq, rmatch_star in E. unfold ws in E.
  apply star_chr_sound in E. destruct E as (mid & rest & Ha & Hmid & E).
  cbn [before after groups] in *.
  rewrite rmatch_seq, rmatch_chr in E. cbn [after] in E.
  destruct rest as [|c rest]; [discriminate |].
  unfold eqc in E at 1. destruct (N.eqb_spec c 40%N) as [-> |];
    [| discriminate].
  clear E. apply app_eq_app in Ha.
  destruct Ha as (l & [[Hs' HR] | [Hm HR]]).
  - destruct l as [|c l].
    + rewrite app_nil_r in Hs'. subst mid.
      rewrite List.Forall_forall in Hmid.
      rewrite (Hmid z) in Hz; [discriminate |].
      rewrite Hs. apply in_or_app. right. left. reflexivity.
    + cbn [app] in HR. injection HR as <- _. apply Hparen.
      rewrite Hs'. apply elem_of_app. right. left.
  - rewrite List.Forall_forall in Hmid.
    rewrite (Hmid z) in Hz; [discriminate |].
    rewrite Hm, Hs. apply in_or_app. left. apply in_or_app. right.
    left. reflexivity.
Qed.

(** At the white space before a parenthesis that is closed at the end of
    the text the pattern matches, up to the end. *)
Lemma parenthetical_match bef (w x : str) :
  Forall (fun c => isspace c = true) w -> NL ∉ x ->
  exists m,
    match_at false parenthetical_re
      (Cursor bef (w ++ 40%N :: x ++ [41%N]) []) = Some m
    /\ after (m_end m) = [].
Proof.
  intros Hw Hx.
  assert (Hsome : is_Some (match_at false parenthetical_re
                    (Cursor bef (w ++ 40%N :: x ++ [41%N]) []))).
  { unfold match_at, parenthetical_re.
    rewrite rmatch_seq, rmatch_star. unfold ws.
    apply (star_chr_complete false isspace _ w _ _ (40%N :: x ++ [41%N]));
      [reflexivity | exact Hw | reflexivity |].
    cbn [before after groups].
    rewrite rmatch_seq, rmatch_chr. cbn [after].
    change (eqc 40%N 40%N) with true. cbv iota.
    rewrite rmatch_seq, rmatch_star.
    apply (star_chr_complete false dot _ x _ _ [41%N]);
      [reflexivity | apply no_newline_dot, Hx | reflexivity |].
    unfold advance. cbn [before after groups].
    rewrite rmatch_seq, rmatch_chr. cbn [after].
    change (eqc 41%N 41%N) with true. cbv iota.
    rewrite rmatch_seq, rmatch_star. unfold advance.
    cbn [after length star_loop]. rewrite rmatch_eol.
    cbn [at_eol after]. eauto. }
  destruct Hsome as [m Hm]. exists m. split; [exact Hm |].
  unfold match_at, parenthetical_re in Hm.
  rewrite rmatch_seq in Hm. apply rmatch_sound in Hm.
  destruct Hm as (st1 & Hr1 & Hm).
  rewrite rmatch_seq in Hm. apply rmatch_sound in Hm.
  destruct Hm as (st2 & Hr2 & Hm).
  rewrite rmatch_seq in Hm. apply rmatch_sound in Hm.
  destruct Hm as (st3 & Hr3 & Hm).
  rewrite rmatch_seq in Hm. apply rmatch_sound in Hm.
  destruct Hm as (st4 & Hr4 & Hm).
  rewrite rmatch_seq in Hm. apply rmatch_sound in Hm.
  destruct Hm as (st5 & Hr5 & Hm).
  rewrite rmatch_eol in Hm.
  destruct (at_eol false st5) eqn:Eeol; [| discriminate].
  injection Hm as <-. cbn [m_end].
  apply at_eol_single in Eeol. destruct Eeol as [E | E]; [exact E |].
  exfalso.
  pose proof (reaches_trans _ _ _ Hr1
                (reaches_trans _ _ _ Hr2
                   (reaches_trans _ _ _ Hr3
                      (reaches_trans _ _ _ Hr4 Hr5)))) as (mid & Hmid & _).
  cbn [after] in Hmid. rewrite E in Hmid.
  change (w ++ 40%N :: x ++ [41%N]) with (w ++ (40%N :: x) ++ [41%N])
    in Hmid.
  rewrite app_assoc in Hmid. apply app_inj_tail in Hmid.
  destruct Hmid as [_ Hmid]. discriminate.
Qed.

(** The search walks over a text without parenthesis that ends with a
    character other than white space. *)
Lemma finditer_parenthetical_skip : forall (s : str) fuel bef R,
  length s < fuel ->
  (s = [] \/ exists t z, s = t ++ [z] /\ isspace z = false) ->
  40%N ∉ s ->
  finditer_from false parenthetical_re fuel bef (s ++ R)
  = finditer_from false parenthetical_re (fuel - length s) (rev s ++ bef) R.
Proof.
  induction s as [|c s IH]; intros fuel bef R Hf Hshape Hparen.
  - cbn [app length rev]. rewrite Nat.sub_0_r. reflexivity.
  - destruct fuel as [|fuel]; [lia |]. cbn [length] in Hf.
    destruct Hshape as [| (t & z & Ht & Hz)]; [discriminate |].
    change ((c :: s) ++ R) with (c :: s ++ R). cbn [finditer_from].
    change (c :: s ++ R) with ((c :: s) ++ R).
    rewrite (parenthetical_no_match bef (c :: s) R z t Hparen Ht Hz).
    cbn [app]. rewrite IH.
    + cbn [length rev Nat.sub]. rewrite <- app_assoc. reflexivity.
    + lia.
    + destruct s as [|c' s']; [left; reflexivity |]. right.
      destruct t as [|c0 t]; [discriminate |].
      cbn [app] in Ht. injection Ht as _ Ht. exists t, z. auto.
    + intros H. apply Hparen. right. exact H.
Qed.

Lemma plain_name_spec (a : str) :
  plain_name a = true ->
  (40%N ∉ a)
  /\ (exists c t, a = c :: t /\ isspace c = false)
  /\ (exists t z, a = t ++ [z] /\ isspace z = false).
Proof.
  unfold plain_name. rewrite !andb_true_iff, negb_true_iff.
  intros [[Hp Hh] Hl]. split; [| split].
  - intros Hin. apply list_elem_of_In in Hin.
    assert (He : existsb (eqc 40%N) a = true).
    { apply existsb_exists. exists 40%N. split; [exact Hin | reflexivity]. }
    congruence.
  - destruct a as [|c t]; [discriminate |]. exists c, t.
    split; [reflexivity | apply negb_true_iff, Hh].
  - destruct (rev a) as [|z u] eqn:E; [discriminate |].
    exists (rev u), z. split; [| apply negb_true_iff, Hl].
    apply (f_equal (@rev N)) in E. rewrite rev_involutive in E. exact E.
Qed.

Lemma known_author_shape (a : str) :
  a ∈ _KNOWN_AUTHORS ->
  (40%N ∉ a)
  /\ (exists c t, a = c :: t /\ isspace c = false)
  /\ (exists t z, a = t ++ [z] /\ isspace z = false).
Proof.
  intros H. apply plain_name_spec.
  assert (Hall : forallb plain_name _KNOWN_AUTHORS = true)
    by (vm_compute; reflexivity).
  rewrite forallb_forall in Hall. apply Hall, list_elem_of_In, H.
Qed.

(** X14: the name of a known author is recognised as it stands and when
    a remark in parentheses follows it on the line, white space or none
    before the opening parenthesis. *)
Theorem known_author_with_remark (a w x : str) :
  a ∈ _KNOWN_AUTHORS ->
  Forall (fun c => isspace c = true) w ->
  NL ∉ x ->
  _is_known_author a = true
  /\ _is_known_author (a ++ w ++ 40%N :: x ++ [41%N]) = true.
Proof.
  intros Ha Hw Hx.
  destruct (known_author_shape a Ha)
    as (Hparen & (c0 & t0 & Hhead & Hc0) & (t1 & z & Hlast & Hz)).
  split.
  - assert (Hall : forallb _is_known_author _KNOWN_AUTHORS = true)
      by (vm_compute; reflexivity).
    rewrite forallb_forall in Hall. apply Hall, list_elem_of_In, Ha.
  - unfold _is_known_author.
    set (R := w ++ 40%N :: x ++ [41%N]).
    assert (Hstrip : strip (a ++ R) = a ++ R).
    { apply strip_fixed.
      - intros c t Hc. rewrite Hhead in Hc. injection Hc as <- _. exact Hc0.
      - intros t c Hc. unfold R in Hc.
        change (a ++ w ++ 40%N :: x ++ [41%N])
          with (a ++ w ++ (40%N :: x) ++ [41%N]) in Hc.
        rewrite !app_assoc in Hc. apply app_inj_tail in Hc.
        destruct Hc as [_ <-]. reflexivity. }
    rewrite Hstrip.
    assert (Hsub : re_sub parenthetical_re [] (a ++ R) = a).
    { unfold re_sub, finditer.
      rewrite finditer_parenthetical_skip;
        [| rewrite length_app; lia | right; eauto | exact Hparen].
      rewrite length_app.
      replace (S (length a + length R) - length a) with (S (length R))
        by lia.
      destruct (parenthetical_match (rev a ++ []) w x Hw Hx)
        as (m & Hm & Hend).
      fold R in Hm. cbn [finditer_from]. rewrite Hm, Hend.
      assert (HR : 0 < length R).
      { unfold R. rewrite length_app. cbn [length]. lia. }
      change (length (@nil N)) with 0.
      rewrite (proj2 (Nat.ltb_lt 0 (length R)) HR).
      assert (Htail : finditer_from false parenthetical_re (length R)
                        (before (m_end m)) [] = []).
      { destruct (length R); reflexivity. }
      rewrite Htail. cbn [replaced]. rewrite Hend, !app_nil_r.
      unfold upto. apply match_at_sound in Hm. destruct Hm as [-> _].
      cbn [after]. rewrite length_app, Nat.add_sub.
      apply take_app_length. }
    rewrite Hsub. apply bool_decide_eq_true_2. exact Ha.
Qed.

Lemma known_author_with_remark_witness :
  _is_known_author (py "Rabia al-Basri") = true
  /\ _is_known_author
       (py "Rabia al-Basri" ++ py "  "
        ++ 40%N :: py "Rabia al- (Adawiyya)" ++ [41%N]) = true.
Proof.
  apply known_author_with_remark.
  - apply (bool_decide_unpack _). vm_compute. exact I.
  - repeat constructor.
  - apply (bool_decide_unpack _). vm_compute. exact I.
Defined.

(** ** slugify: what the slug keeps *)

Lemma filter_all_false {B : Type} (P : B -> Prop) `{forall x, Decision (P x)}
    (l : list B) :
  Forall (fun x => ~ P x) l -> filter P l = [].
Proof.
  induction 1 as [|x l Hx _ IH]; [reflexivity |].
  rewrite filter_cons_False by exact Hx. exact IH.
Qed.

(** [strip] of characters that are no letters or digits keeps the letters
    and digits. *)
Lemma filter_alnum_strip_hyphen (s : str) :
  filter (fun c => is_slug_alnum c = true) (strip_with (eqc HYPHEN) s)
  = filter (fun c => is_slug_alnum c = true) s.
Proof.
  destruct (lstrip_with_split (eqc HYPHEN) s) as (pre & Hpre & Hp).
  destruct (rstrip_with_split (eqc HYPHEN) (lstrip_with (eqc HYPHEN) s))
    as (suf & Hsuf & Hs).
  assert (H : s = pre ++ strip_with (eqc HYPHEN) s ++ suf).
  { unfold strip_with. rewrite <- Hsuf. exact Hpre. }
  assert (Hno : forall l : str, Forall (fun c => eqc HYPHEN c = true) l ->
            filter (fun c => is_slug_alnum c = true) l = []).
  { intros l Hl. apply filter_all_false.
    eapply Forall_impl; [exact Hl |]. cbv beta. intros c Hc Ha.
    rewrite (slug_alnum_not_hyphen c Ha) in Hc. discriminate. }
  replace (filter (fun c => is_slug_alnum c = true) s)
    with (filter (fun c => is_slug_alnum c = true)
            (pre ++ strip_with (eqc HYPHEN) s ++ suf))
    by (rewrite <- H; reflexivity).
  rewrite !filter_app, (Hno pre Hp), (Hno suf Hs), app_nil_r. reflexivity.
Qed.

Lemma filter_alnum_collapse b (s : str) :
  filter (fun c => is_slug_alnum c = true) (collapse_runs non_alnum b s)
  = filter (fun c => is_slug_alnum c = true) s.
Proof.
  revert b. induction s as [|c s IH]; intros b; [reflexivity |].
  cbn [collapse_runs]. unfold non_alnum at 1.
  destruct (is_slug_alnum c) eqn:E; cbn [negb].
  - rewrite !filter_cons_True by exact E. rewrite IH. reflexivity.
  - rewrite (filter_cons_False (fun c => is_slug_alnum c = true) c s)
      by (rewrite E; discriminate).
    destruct b; [apply IH |].
    rewrite filter_cons_False by discriminate. apply IH.
Qed.

Lemma lower_alnum c : is_slug_alnum (lower_char c) = is_ascii_alnum c.
Proof.
  unfold is_slug_alnum, lower_char, is_ascii_alnum.
  destruct (N.leb_spec 65 c), (N.leb_spec c 90); cbn [andb];
    repeat match goal with
           | |- context [(?a <=? ?b)%N] => destruct (N.leb_spec a b)
           end; cbn; try reflexivity; lia.
Qed.

Lemma filter_alnum_lower (s : str) :
  filter (fun c => is_slug_alnum c = true) (lower s)
  = lower (filter (fun c => is_ascii_alnum c = true) s).
Proof.
  unfold lower. induction s as [|c s IH]; [reflexivity |].
  cbn [map]. pose proof (lower_alnum c) as Hc.
  destruct (is_ascii_alnum c) eqn:E.
  - rewrite filter_cons_True by exact Hc.
    rewrite (filter_cons_True (fun c => is_ascii_alnum c = true)) by exact E.
    cbn [map]. rewrite IH. reflexivity.
  - rewrite filter_cons_False by (rewrite Hc; discriminate).
    rewrite (filter_cons_False (fun c => is_ascii_alnum c = true))
      by (rewrite E; discriminate).
    exact IH.
Qed.

Lemma filter_alnum_ascii_ignore (s : str) :
  filter (fun c => is_ascii_alnum c = true) (ascii_ignore s)
  = filter (fun c => is_ascii_alnum c = true) s.
Proof.
  unfold ascii_ignore. induction s as [|c s IH]; [reflexivity |].
  destruct (is_ascii c) eqn:Ea.
  - rewrite (filter_cons_True (fun c => is_ascii c = true)) by exact Ea.
    destruct (is_ascii_alnum c) eqn:E.
    + rewrite !filter_cons_True by exact E. rewrite IH. reflexivity.
    + rewrite !filter_cons_False by (rewrite E; discriminate). exact IH.
  - rewrite (filter_cons_False (fun c => is_ascii c = true))
      by (rewrite Ea; discriminate).
    rewrite filter_cons_False; [exact IH |].
    intros E. revert Ea E. unfold is_ascii, is_ascii_alnum.
    rewrite N.ltb_ge, !orb_true_iff, !andb_true_iff, !N.leb_le. lia.
Qed.

Lemma slugify_alnum (normalize_NFKD : str -> str) (text : str) :
  filter (fun c => is_slug_alnum c = true) (slugify normalize_NFKD text)
  = lower (filter (fun c => is_ascii_alnum c = true) (normalize_NFKD text)).
Proof.
  unfold slugify, non_alnum_run.
  rewrite filter_alnum_strip_hyphen, re_sub_runs, filter_alnum_collapse.
  rewrite filter_alnum_lower, filter_alnum_ascii_ignore. reflexivity.
Qed.

(** X15: the letters and digits of a slug are the ASCII letters and
    digits of the normalised title, in lower case and in the same order;
    whatever else the title holds is dropped or turned into hyphens. *)
Theorem slugify_keeps_alnum (normalize_NFKD : str -> str) (text : str) :
  filter (fun c => is_slug_alnum c = true) (slugify normalize_NFKD text)
  = lower (filter (fun c => is_ascii_alnum c = true) (normalize_NFKD text)).
Proof. apply slugify_alnum. Qed.

(** X16: the slug is the empty string exactly when the normalised title
    holds no ASCII letter and no digit. *)
Theorem slugify_empty_iff (normalize_NFKD : str -> str) (text : str) :
  slugify normalize_NFKD text = [] <->
  Forall (fun c => is_ascii_alnum c = false) (normalize_NFKD text).
Proof.
  pose proof (slugify_alnum normalize_NFKD text) as Hal. split.
  - intros H. rewrite H in Hal. cbn in Hal. symmetry in Hal.
    unfold lower in Hal. apply map_eq_nil in Hal.
    apply List.Forall_forall. intros c Hc.
    destruct (is_ascii_alnum c) eqn:E; [| reflexivity].
    assert (Hin : c ∈ filter (fun c => is_ascii_alnum c = true)
                      (normalize_NFKD text)).
    { apply list_elem_of_filter. split; [exact E |].
      apply list_elem_of_In, Hc. }
    rewrite Hal in Hin. inversion Hin.
  - intros H.
    rewrite (filter_all_false _ (normalize_NFKD text)) in Hal.
    2:{ eapply Forall_impl; [exact H |]. cbv beta. intros c Hc.
        rewrite Hc. discriminate. }
    change (lower []) with (@nil N) in Hal.
    pose proof (slugify_charset normalize_NFKD text) as Hcs.
    destruct (slugify normalize_NFKD text) as [|c s] eqn:E; [reflexivity |].
    exfalso.
    assert (Hh : eqc HYPHEN c = false).
    { unfold slugify in E. eapply strip_with_head. exact E. }
    inversion Hcs as [|? ? [Hc | Hc] _]; subst.
    + rewrite filter_cons_True in Hal by exact Hc. discriminate.
    + discriminate.
Qed.

(** ** fetch_doc_text *)

Lemma lone_cr_suffix (pre s : str) :
  lone_cr (pre ++ s) = false -> lone_cr s = false.
Proof.
  induction pre as [|c pre IH]; [trivial |].
  cbn [app lone_cr]. intros H.
  apply orb_false_iff in H. apply IH, H.
Qed.

Lemma replace_crlf_no_cr : forall n (s : str),
  length s <= n -> lone_cr s = false -> CR ∉ replace_crlf s.
Proof.
  induction n as [|n IH]; intros s Hn Hs.
  - destruct s; [intros H; inversion H | cbn in Hn; lia].
  - destruct s as [|c t]; [intros H; inversion H |].
    cbn [length] in Hn. cbn [lone_cr] in Hs.
    apply orb_false_iff in Hs. destruct Hs as (Hc & Ht).
    cbn [replace_crlf].
    destruct t as [|c' t'].
    + intros H. apply list_elem_of_singleton in H. subst c.
      discriminate.
    + destruct (N.eqb_spec c CR) as [-> | Hne]; cbn [andb] in *.
      * destruct (N.eqb_spec c' NL) as [-> | Hne']; [| discriminate].
        intros H. apply elem_of_cons in H. destruct H as [H | H];
          [discriminate |].
        revert H. apply (IH t'); [cbn [length] in Hn; lia |].
        cbn [lone_cr] in Ht. apply orb_false_iff in Ht. apply Ht.
      * intros H. apply elem_of_cons in H. destruct H as [H | H];
          [congruence |].
        revert H. apply (IH (c' :: t')); [lia | exact Ht].
Qed.

(** X17: the text [fetch_doc_text] returns never starts with a byte
    order mark, whatever the response, and when every carriage return of
    the response is followed by a line feed it holds no carriage return
    at all. *)
Theorem fetch_doc_text_normalised (resp_text : str) :
  head (fetch_doc_text resp_text) <> Some BOM
  /\ (lone_cr resp_text = false -> CR ∉ fetch_doc_text resp_text).
Proof.
  unfold fetch_doc_text.
  destruct (lstrip_with_split (eqc BOM) resp_text) as (pre0 & Hpre & _).
  split; [| intros Hs].
  - destruct (lstrip_with (eqc BOM) resp_text) as [|c t] eqn:E;
      [discriminate |].
    apply lstrip_with_head in E. cbn [replace_crlf].
    destruct t as [|c' t'].
    + intros [= ->]. discriminate.
    + destruct ((c =? CR) && (c' =? NL))%N; intros H;
        injection H as H; try discriminate H; subst c; discriminate E.
  - apply (replace_crlf_no_cr (length (lstrip_with (eqc BOM) resp_text)));
      [reflexivity |].
    apply (lone_cr_suffix pre0). rewrite <- Hpre. exact Hs.
Qed.

Lemma fetch_doc_text_normalised_witness :
  head (fetch_doc_text (BOM :: py "A" ++ [CR; NL] ++ py "B" ++ [CR; NL]))
  <> Some BOM
  /\ CR ∉ fetch_doc_text (BOM :: py "A" ++ [CR; NL] ++ py "B" ++ [CR; NL]).
Proof.
  destruct (fetch_doc_text_normalised
              (BOM :: py "A" ++ [CR; NL] ++ py "B" ++ [CR; NL]))
    as [Hbom Hcr].
  split; [exact Hbom | apply Hcr; reflexivity].
Defined.

(** ** build_tts_text *)

Lemma squeeze_in_run p r (s : str) :
  squeeze p r true s = squeeze p r false (lstrip_with p s).
Proof.
  induction s as [|c t IH]; [reflexivity |].
  cbn [squeeze lstrip_with]. destruct (p c) eqn:E; [exact IH |].
  cbn [squeeze]. rewrite E. reflexivity.
Qed.

Lemma replaced_squeeze p r fuel :
  forall bef aft pre, length aft < fuel ->
    replaced [r] (pre ++ aft)
      (finditer_from false (Plus (Chr p)) fuel bef aft)
    = pre ++ squeeze p r false aft.
Proof.
  induction fuel as [|fuel IH]; intros bef aft pre Hlen; [lia |].
  cbn [finditer_from]. rewrite match_at_run.
  destruct aft as [|c t].
  - cbn [replaced squeeze]. reflexivity.
  - cbn [squeeze]. cbn [length] in Hlen. destruct (p c) eqn:E.
    + cbn [m_end]. rewrite after_skip.
      pose proof (length_lstrip_with p t) as Hle.
      rewrite (proj2 (Nat.ltb_lt _ _)) by (cbn [length]; lia).
      cbn [replaced m_start m_end]. rewrite after_skip.
      unfold upto. cbn [m_start after].
      rewrite length_app, Nat.add_sub, take_app_length.
      pose proof (IH (before (skip p (c :: bef) t [])) (lstrip_with p t) [])
        as IH'.
      cbn [app] in IH'. rewrite IH' by lia.
      rewrite squeeze_in_run. reflexivity.
    + replace (pre ++ c :: t) with ((pre ++ [c]) ++ t)
        by (rewrite <- app_assoc; reflexivity).
      rewrite IH by lia. rewrite <- app_assoc. reflexivity.
Qed.

(** [re.sub] with the pattern [[p]+] and the direct function agree. *)
Lemma re_sub_squeeze p r (s : str) :
  re_sub (Plus (Chr p)) [r] s = squeeze p r false s.
Proof.
  unfold re_sub, finditer.
  apply (replaced_squeeze p r (S (length s)) [] s []). lia.
Qed.

Lemma length_squeeze p r b (s : str) : length (squeeze p r b s) <= length s.
Proof.
  revert b. induction s as [|c t IH]; intros b; [reflexivity |].
  pose proof (IH true). pose proof (IH false).
  cbn [squeeze]. destruct (p c), b; cbn [length]; lia.
Qed.

Lemma lstrip_with_app p (a b : str) :
  lstrip_with p (a ++ b)
  = match lstrip_with p a with
    | [] => lstrip_with p b
    | c :: t => (c :: t) ++ b
    end.
Proof.
  induction a as [|c t IH]; [reflexivity |].
  cbn [app lstrip_with]. destruct (p c); [exact IH | reflexivity].
Qed.

(** [rstrip] of a string, from [rstrip] of its tail. *)
Lemma rstrip_with_step p c (s : str) :
  rstrip_with p (c :: s)
  = match rstrip_with p s with
    | [] => if p c then [] else [c]
    | a :: t => c :: a :: t
    end.
Proof.
  unfold rstrip_with. cbn [rev]. rewrite lstrip_with_app.
  destruct (lstrip_with p (rev s)) as [|a t] eqn:E.
  - cbn [rev lstrip_with]. destruct (p c); reflexivity.
  - cbn [rev]. destruct (rev t ++ [a]) as [|a' t'] eqn:E'.
    + destruct (rev t); discriminate.
    + rewrite <- E'. rewrite rev_app_distr. reflexivity.
Qed.

Lemma isspace_SPACE : isspace SPACE = true.
Proof. reflexivity. Qed.

Lemma words_lstrip (s : str) : words (lstrip_with isspace s) = words s.
Proof.
  induction s as [|c t IH]; [reflexivity |].
  cbn [lstrip_with]. destruct (isspace c) eqn:E.
  - rewrite IH. cbn [words]. rewrite E. reflexivity.
  - reflexivity.
Qed.

Lemma words_head c (t : str) :
  isspace c = false -> exists w ws, words (c :: t) = (c :: w) :: ws.
Proof.
  intros Hc. cbn [words]. rewrite Hc.
  destruct t as [|c' t']; [exists [], []; reflexivity |].
  destruct (isspace c'); [eexists [], _; reflexivity |].
  destruct (words (c' :: t')); eexists _, _; reflexivity.
Qed.

Lemma words_shape (s : str) :
  Forall (fun w => w <> [] /\ Forall (fun c => isspace c = false) w)
    (words s).
Proof.
  induction s as [|c t IH]; [constructor |].
  cbn [words]. destruct (isspace c) eqn:Ec; [exact IH |].
  destruct t as [|c' t'].
  - constructor; [| constructor].
    split; [discriminate | constructor; [exact Ec | constructor]].
  - destruct (isspace c') eqn:Ec'.
    + constructor; [| exact IH].
      split; [discriminate | constructor; [exact Ec | constructor]].
    + destruct (words (c' :: t')) as [|w ws].
      * constructor; [| constructor].
        split; [discriminate | constructor; [exact Ec | constructor]].
      * inversion IH as [|? ? (Hw & Hall) Hws]; subst.
        constructor; [| exact Hws].
        split; [discriminate | constructor; assumption].
Qed.

Lemma words_concat (s : str) :
  concat (words s) = filter (fun c => isspace c = false) s.
Proof.
  induction s as [|c t IH]; [reflexivity |].
  cbn [words]. destruct (isspace c) eqn:Ec.
  - rewrite filter_cons_False by congruence. exact IH.
  - rewrite filter_cons_True by exact Ec. rewrite <- IH.
    destruct t as [|c' t']; [reflexivity |].
    destruct (isspace c') eqn:Ec'; [reflexivity |].
    destruct (words_head c' t' Ec') as (w & ws & ->). reflexivity.
Qed.

Lemma join_sp_nil (ws : list str) :
  Forall (fun w => w <> []) ws -> join_sp ws = [] -> ws = [].
Proof.
  intros Hall H. destruct ws as [|w ws]; [reflexivity |].
  inversion Hall as [|? ? Hw _]; subst.
  destruct w; [contradiction |]. destruct ws; discriminate.
Qed.

Lemma squeeze_lstrip r (s : str) :
  isspace r = true ->
  lstrip_with isspace (squeeze isspace r false s)
  = squeeze isspace r false (lstrip_with isspace s).
Proof.
  intros Hr. destruct s as [|c t]; [reflexivity |].
  cbn [squeeze lstrip_with]. destruct (isspace c) eqn:Ec.
  - cbn [lstrip_with]. rewrite Hr, squeeze_in_run.
    destruct (lstrip_with isspace t) as [|a u] eqn:E; [reflexivity |].
    apply lstrip_with_head in E. cbn [squeeze]. rewrite E.
    cbn [lstrip_with]. rewrite E. reflexivity.
  - cbn [lstrip_with squeeze]. rewrite Ec. reflexivity.
Qed.

(** Squeezed and stripped on the right, a string that does not start with
    white space is its words joined by single spaces. *)
Lemma rstrip_squeeze_words : forall n (u : str),
  length u <= n ->
  (forall c t, u = c :: t -> isspace c = false) ->
  rstrip_with isspace (squeeze isspace SPACE false u) = join_sp (words u).
Proof.
  induction n as [|n IH]; intros u Hn Hu.
  - destruct u; [reflexivity | cbn in Hn; lia].
  - destruct u as [|c t]; [reflexivity |].
    pose proof (Hu c t eq_refl) as Hc. cbn [length] in Hn.
    cbn [squeeze words]. rewrite Hc, rstrip_with_step, Hc.
    destruct t as [|c' t']; [reflexivity |].
    destruct (isspace c') eqn:Ec'.
    + cbn [squeeze]. rewrite Ec', squeeze_in_run, rstrip_with_step.
      rewrite isspace_SPACE.
      pose proof (length_lstrip_with isspace t') as Hle.
      cbn [length] in Hn.
      rewrite (IH (lstrip_with isspace t')) by
        (first [lia | intros a b E; eapply lstrip_with_head; exact E]).
      cbn [words]. rewrite Ec'. rewrite words_lstrip.
      pose proof (words_shape t') as Hsh.
      destruct (words t') as [|w ws]; [reflexivity |].
      inversion Hsh as [|? ? (Hw & _) _]; subst.
      destruct w as [|a w]; [contradiction |].
      destruct ws; reflexivity.
    + rewrite (IH (c' :: t')) by
        (first [lia | intros a b [= <- <-]; exact Ec']).
      destruct (words_head c' t' Ec') as (w & ws & ->).
      destruct ws; reflexivity.
Qed.

Lemma prose_words (s : str) :
  strip (re_sub ws_run (py " ") s) = join_sp (words s).
Proof.
  unfold ws_run, ws. change (py " ") with [SPACE].
  rewrite re_sub_squeeze. unfold strip, strip_with.
  rewrite squeeze_lstrip by reflexivity.
  rewrite (rstrip_squeeze_words (length (lstrip_with isspace s)));
    [rewrite words_lstrip; reflexivity | reflexivity |].
  intros c t E. eapply lstrip_with_head. exact E.
Qed.

(** X18: the text [build_tts_text] returns is the title, [", by "], the
    author (the word None when there is none), a period, an empty line
    and then the words of the body separated by single spaces, where the
    words are the longest runs of characters other than white space:
    no line break and no white space other than these single spaces is
    left of the body, and no other character of it is lost. *)
Theorem build_tts_text_words (p : poem) :
  build_tts_text p
  = poem_title p ++ py ", by " ++ format_value (poem_author p) ++ py "."
    ++ [NL; NL] ++ join_sp (words (poem_body p))
  /\ Forall (fun w => w <> [] /\ Forall (fun c => isspace c = false) w)
       (words (poem_body p))
  /\ concat (words (poem_body p))
     = filter (fun c => isspace c = false) (poem_body p).
Proof.
  split; [| split; [apply words_shape | apply words_concat]].
  unfold build_tts_text. rewrite prose_words.
  rewrite <- !app_assoc. reflexivity.
Qed.

(** X19: the number of characters counted for a poem is at most the
    lengths of its title, of its author as formatted and of its body,
    plus the eight characters of [", by "], the period and the two
    line feeds. *)
Theorem char_count_bound (p : poem) :
  char_count p
  <= length (poem_title p) + length (format_value (poem_author p))
     + length (poem_body p) + 8.
Proof.
  unfold char_count, build_tts_text, ws_run, ws.
  change (py " ") with [SPACE]. rewrite re_sub_squeeze.
  pose proof (length_strip (squeeze isspace SPACE false (poem_body p))).
  pose proof (length_squeeze isspace SPACE false (poem_body p)).
  rewrite !length_app. cbn [length py]. lia.
Qed.

(** ** generate_audio: the attempts *)

(** X20: the loop of [generate_audio] makes the attempts 0, 1, ... and
    at most three of them.  With [k] the last attempt made, every attempt
    before it has raised an instance of [Exception], after which the
    calls of the [except] branch have returned, and the loop has slept
    2, 4, ... seconds, once after each of these [k] attempts and at no
    other time.  At attempt [k] the loop ends in one of four ways: the
    [try] block returns and the loop is left with its bytes; or it raises
    what is no instance of [Exception], which is passed on at once; or it
    raises an instance of [Exception] at the third attempt, which is
    raised again; or it raises one before and a call of the [except]
    branch raises, which is passed on.  The loop never runs out of its
    range. *)
Theorem generate_audio_attempts_bounded {Exc B : Type}
    (is_Exception : Exc -> bool) (try_block : nat -> Exc + B)
    (handler : nat -> option (handler_call * Exc)) :
  exists k,
    k < TTS_MAX_RETRIES
    /\ (forall j, j < k ->
          exists e, try_block j = inl e /\ is_Exception e = true
                    /\ handler j = None)
    /\ tries (generate_audio_attempts is_Exception try_block handler).1
       = seq 0 (S k)
    /\ sleeps (generate_audio_attempts is_Exception try_block handler).1
       = map (fun j => 2 ^ (j + 1)) (seq 0 k)
    /\ ((exists audio_bytes,
           try_block k = inr audio_bytes
           /\ (generate_audio_attempts is_Exception try_block handler).2
              = Break audio_bytes)
        \/ (exists e,
              try_block k = inl e /\ is_Exception e = false
              /\ (generate_audio_attempts is_Exception try_block handler).2
                 = Raises e)
        \/ (exists e,
              try_block k = inl e /\ is_Exception e = true
              /\ k = TTS_MAX_RETRIES - 1
              /\ (generate_audio_attempts is_Exception try_block handler).2
                 = Raises e)
        \/ (exists e call x,
              try_block k = inl e /\ is_Exception e = true
              /\ k < TTS_MAX_RETRIES - 1
              /\ handler k = Some (call, x)
              /\ (generate_audio_attempts is_Exception try_block handler).2
                 = Raises x)).
Proof.
  unfold generate_audio_attempts, TTS_MAX_RETRIES.
  cbn [seq attempts_from].
  destruct (try_block 0) as [e0 | b0] eqn:E0.
  2: { exists 0. cbn. repeat split; try lia. left. eauto. }
  destruct (is_Exception e0) eqn:X0.
  2: { exists 0. cbn. repeat split; try lia. right. left. eauto. }
  cbn [Nat.ltb Nat.leb Nat.sub].
  destruct (handler 0) as [[c0 x0] |] eqn:H0.
  { exists 0. repeat split; try lia.
    - destruct c0; reflexivity.
    - destruct c0; reflexivity.
    - do 3 right. exists e0, c0, x0. repeat split; try assumption. lia. }
  destruct (try_block 1) as [e1 | b1] eqn:E1.
  2: { exists 1. cbn. repeat split; try lia.
       - intros j Hj. destruct j; [eauto | lia].
       - left. eauto. }
  destruct (is_Exception e1) eqn:X1.
  2: { exists 1. cbn. repeat split; try lia.
       - intros j Hj. destruct j; [eauto | lia].
       - right. left. eauto. }
  destruct (handler 1) as [[c1 x1] |] eqn:H1.
  { exists 1. repeat split; try lia.
    - intros j Hj. destruct j; [eauto | lia].
    - destruct c1; reflexivity.
    - destruct c1; reflexivity.
    - do 3 right. exists e1, c1, x1. repeat split; try assumption. lia. }
  exists 2.
  assert (Hbefore : forall j, j < 2 ->
            exists e, try_block j = inl e /\ is_Exception e = true
                      /\ handler j = None).
  { intros j Hj. destruct j as [|[|j]]; [eauto | eauto | lia]. }
  destruct (try_block 2) as [e2 | b2] eqn:E2.
  2: { cbn. repeat split; try lia; [exact Hbefore |]. left. eauto. }
  destruct (is_Exception e2) eqn:X2.
  - cbn. repeat split; try lia; [exact Hbefore |].
    right. right. left. eauto.
  - cbn. repeat split; try lia; [exact Hbefore |].
    right. left. eauto.
Qed.
